(** * data_clean/preprocessing.py: corpus filtering and piano-roll assembly

    A shallow embedding of [FileReport] and [Preprocess].  Python floats are
    the kernel's binary64 floats, Python ints are [Z], exceptions are the
    error side of a small result monad, and a two-dimensional numpy array is
    a record carrying its shape next to its rows. *)

From Stdlib Require Import String ZArith QArith List Bool Lia.
From Stdlib Require Import Floats.
Import ListNotations.
Local Open Scope Z_scope.

(** ** Exceptions and the result monad *)

(** The exceptions the module can raise, named after the Python exception and
    the place that raises it. *)
Inductive exn : Type :=
| ValueError_empty_sequence      (* min() / max() of an empty list *)
| IndexError_list_index          (* [][0] *)
| ValueError_nan_to_int          (* int(float('nan')) *)
| ValueError_need_one_array      (* np.hstack([]) *)
| ValueError_dimension_mismatch  (* np.hstack of arrays with different row counts *)
| OtherError (msg : string).     (* whatever pretty_midi raises, parsing a file
                                    or estimating its tempo *)

(** The names the specification gives to two of them. *)
Definition EmptyTrackError : exn := ValueError_empty_sequence.
Definition EmptyCorpusError : exn := ValueError_need_one_array.

Inductive result (A : Type) : Type :=
| Ok (a : A)
| Err (e : exn).
Arguments Ok {A} a.
Arguments Err {A} e.

Definition bind {A B : Type} (c : result A) (k : A -> result B) : result B :=
  match c with
  | Ok a => k a
  | Err e => Err e
  end.

Declare Scope result_scope.
Delimit Scope result_scope with result.
Notation "x <- c ;; k" := (bind c (fun x => k))
  (at level 61, c at next level, right associativity) : result_scope.
Notation "' p <- c ;; k" := (bind c (fun x => let 'p := x in k))
  (at level 61, p pattern, c at next level, right associativity) : result_scope.
Local Open Scope result_scope.

(** [try: body except: handler] with a bare [except]. *)
Definition try_except {A : Type} (body : result A) (handler : result A) : result A :=
  match body with
  | Ok a => Ok a
  | Err _ => handler
  end.

Definition is_ok {A : Type} (c : result A) : bool :=
  match c with Ok _ => true | Err _ => false end.

(** ** Range tests *)

(** [Preprocess._is_in_tempo_range] *)
Definition _is_in_tempo_range (tempo mean std : float) : bool :=
  if ((mean - std <? tempo) && (tempo <? mean + std))%float then true else false.

(** [Preprocess._is_in_pitch_range] *)
Definition _is_in_pitch_range (low_pitch high_pitch left_boundary right_boundary : Z) : bool :=
  if (low_pitch >=? left_boundary) && (high_pitch <=? right_boundary) then true else false.

(** ** numpy arrays

    A two-dimensional array keeps its shape explicitly, since an array with
    no rows still has a column count. *)
Record ndarray : Type := mk_ndarray {
  nrows : nat;
  ncols : nat;
  cells : list (list float)
}.

Definition shape (a : ndarray) : nat * nat := (nrows a, ncols a).

Definition well_shaped (a : ndarray) : Prop :=
  length (cells a) = nrows a /\ Forall (fun r => length r = ncols a) (cells a).

(** Python's normalisation of one bound of a slice over a sequence of
    length [len]: a negative bound counts from the end, and both are clamped. *)
Definition slice_index (len i : Z) : Z :=
  if i <? 0 then Z.max 0 (i + len) else Z.min i len.

(** [l[start:stop]] *)
Definition py_slice {A : Type} (l : list A) (start stop : Z) : list A :=
  let len := Z.of_nat (length l) in
  let a := slice_index len start in
  let b := slice_index len stop in
  firstn (Z.to_nat (b - a)) (skipn (Z.to_nat a) l).

(** [a[start:stop]] on the first axis. *)
Definition getitem_slice (a : ndarray) (start stop : Z) : ndarray :=
  let rs := py_slice (cells a) start stop in
  {| nrows := length rs; ncols := ncols a; cells := rs |}.

(** Row [i] of the stacked array is row [i] of each input, end to end. *)
Definition hstack_cells (n : nat) (arrs : list ndarray) : list (list float) :=
  map (fun i => concat (map (fun a => nth i (cells a) []) arrs)) (seq 0 n).

(** [np.hstack] on two-dimensional arrays. *)
Definition np_hstack (arrs : list ndarray) : result ndarray :=
  match arrs with
  | [] => Err ValueError_need_one_array
  | a :: rest =>
      if forallb (fun b => Nat.eqb (nrows b) (nrows a)) rest
      then Ok {| nrows := nrows a;
                 ncols := list_sum (map ncols arrs);
                 cells := hstack_cells (nrows a) arrs |}
      else Err ValueError_dimension_mismatch
  end.

(** Row [j] of the transpose is column [j] of the rows. *)
Definition transpose_cells (c : nat) (rows : list (list float)) : list (list float) :=
  map (fun j => map (fun r => nth j r 0%float) rows) (seq 0 c).

(** [a.T] *)
Definition transpose (a : ndarray) : ndarray :=
  {| nrows := ncols a;
     ncols := nrows a;
     cells := transpose_cells (ncols a) (cells a) |}.

(** ** Python built-ins *)

(** [l[0]] *)
Definition getitem0 {A : Type} (l : list A) : result A :=
  match l with
  | [] => Err IndexError_list_index
  | x :: _ => Ok x
  end.

(** [min(l)] and [max(l)] *)
Definition py_min (l : list Z) : result Z :=
  match l with
  | [] => Err ValueError_empty_sequence
  | x :: r => Ok (fold_left Z.min r x)
  end.

Definition py_max (l : list Z) : result Z :=
  match l with
  | [] => Err ValueError_empty_sequence
  | x :: r => Ok (fold_left Z.max r x)
  end.

Definition sum_Z (l : list Z) : Z := fold_right Z.add 0 l.

(** [np.array(l).mean()] for a list of ints, kept as an exact rational;
    [None] is the NaN numpy returns for no elements.  numpy sums in float64
    and divides by the count: for MIDI pitches, 0 to 127, in a list of fewer
    than 2^46 elements every partial sum is an integer below 2^53, hence
    exact, and the rounded quotient truncates to the same integer as the
    exact one.  Outside these bounds the float64 mean rounds and this
    definition does not follow it; the theorems that read a mean off it
    assume the bounds ([midi_corpus] below). *)
Definition np_mean_int (l : list Z) : option Q :=
  match l with
  | [] => None
  | _ :: _ => Some (Qmake (sum_Z l) (Pos.of_nat (length l)))
  end.

(** [int(x)]: truncation towards zero; NaN cannot be converted. *)
Definition py_int (x : option Q) : result Z :=
  match x with
  | None => Err ValueError_nan_to_int
  | Some q => Ok (Z.quot (Qnum q) (Z.pos (Qden q)))
  end.

(** [dict(Counter(keys))]: counts per key, in order of first occurrence. *)
Fixpoint Counter_add (k : Z) (c : list (Z * nat)) : list (Z * nat) :=
  match c with
  | [] => [(k, 1%nat)]
  | (k', n) :: r => if k =? k' then (k', S n) :: r else (k', n) :: Counter_add k r
  end.

Definition Counter (keys : list Z) : list (Z * nat) :=
  fold_left (fun c k => Counter_add k c) keys [].

(** [sorted(items, key=lambda kv: kv[1], reverse=True)]: a stable sort, so
    items with equal counts keep their relative order. *)
Fixpoint insert_desc (x : Z * nat) (s : list (Z * nat)) : list (Z * nat) :=
  match s with
  | [] => [x]
  | y :: s' => if (snd x <? snd y)%nat then y :: insert_desc x s' else x :: y :: s'
  end.

Definition sorted_desc (items : list (Z * nat)) : list (Z * nat) :=
  fold_right insert_desc [] items.

(** ** Parsed MIDI files *)

Record Note : Type := mk_Note {
  velocity : Z;
  pitch : Z
}.

Record Instrument : Type := mk_Instrument {
  notes : list Note
}.

Record KeySignature : Type := mk_KeySignature {
  key_number : Z
}.

Record TimeSignature : Type := mk_TimeSignature {
  numerator : Z;
  denominator : Z
}.

(** What the module reads of a [pretty_midi.PrettyMIDI] object.  The piano
    roll is the library's result.  [estimate_tempo] is the outcome of the
    library's method [pm.estimate_tempo()], which returns an estimate or
    raises (pretty_midi raises a [ValueError] when the file has too few notes
    to estimate from).  The tempo declarations of the file are part of the
    object although the module never looks at them. *)
Record PrettyMIDI : Type := mk_PrettyMIDI {
  instruments : list Instrument;
  key_signature_changes : list KeySignature;
  time_signature_changes : list TimeSignature;
  tempo_changes : list float;
  estimate_tempo : result float;
  get_piano_roll : ndarray
}.

(** ** FileReport *)

Record FileReport : Type := mk_FileReport {
  tempos : list float;
  freq_key : list (Z * nat);
  min_pitch : list Z;
  max_pitch : list Z
}.

(** [FileReport.get_most_freq_value] with [reversed=True] *)
Definition get_most_freq_value (keys : list (Z * nat)) : result Z :=
  kv <- getitem0 (sorted_desc keys) ;;
  Ok (fst kv).

(** The notes of a file, over all its instruments. *)
Definition all_pitches (pm : PrettyMIDI) : list Z :=
  flat_map (fun instrument => map pitch (notes instrument)) (instruments pm).

(** [Preprocess._get_min_max_pitch] *)
Definition _get_min_max_pitch (pm : PrettyMIDI) : result (Z * Z) :=
  let notes := all_pitches pm in
  lo <- py_min notes ;;
  hi <- py_max notes ;;
  Ok (lo, hi).

(** The loop of [Preprocess.generate_midi_files_report]; the four lists are
    the loop's accumulators. *)
Fixpoint report_loop (pms : list PrettyMIDI)
    (tempos : list float) (keys max_pitchs min_pitchs : list Z)
    : result (list float * list Z * list Z * list Z) :=
  match pms with
  | [] => Ok (tempos, keys, max_pitchs, min_pitchs)
  | pm :: rest =>
      tempo <- estimate_tempo pm ;;
      let tempos := tempos ++ [tempo] in
      ks <- getitem0 (key_signature_changes pm) ;;
      let key := key_number ks in
      let keys := keys ++ [key] in
      '(min_pitch, max_pitch) <- _get_min_max_pitch pm ;;
      report_loop rest tempos keys (max_pitchs ++ [max_pitch]) (min_pitchs ++ [min_pitch])
  end.

(** [Preprocess.generate_midi_files_report] *)
Definition generate_midi_files_report (pms : list PrettyMIDI) : result FileReport :=
  '(tempos, keys, max_pitchs, min_pitchs) <- report_loop pms [] [] [] [] ;;
  Ok (mk_FileReport tempos (Counter keys) min_pitchs max_pitchs).

(** The loop of [Preprocess.piano_roll_filter]. *)
Fixpoint filter_loop (temp_mean temp_std : float) (left_pitch_bounary right_pitch_boundary : Z)
    (pms : list PrettyMIDI) (piano_rolls : list ndarray) : result (list ndarray) :=
  match pms with
  | [] => Ok piano_rolls
  | pm :: rest =>
      tempo <- estimate_tempo pm ;;
      '(min_pitch, max_pitch) <- _get_min_max_pitch pm ;;
      if _is_in_tempo_range tempo temp_mean temp_std
         && _is_in_pitch_range min_pitch max_pitch left_pitch_bounary right_pitch_boundary
      then
        let piano_roll :=
          getitem_slice (get_piano_roll pm) left_pitch_bounary (right_pitch_boundary + 1) in
        filter_loop temp_mean temp_std left_pitch_bounary right_pitch_boundary
          rest (piano_rolls ++ [piano_roll])
      else
        filter_loop temp_mean temp_std left_pitch_bounary right_pitch_boundary
          rest piano_rolls
  end.

Section Preprocess.

(** numpy's [mean] and [std] of a float64 array. *)
Variable np_mean : list float -> float.
Variable np_std : list float -> float.

(** [os.path.join] and the parser, [pretty_midi.PrettyMIDI(path)]. *)
Variable join : string -> string -> string.
Variable PrettyMIDI_of_path : string -> result PrettyMIDI.

(** [FileReport.aggregation_report] *)
Definition aggregation_report (self : FileReport)
    : result (float * float * Z * Z * Z) :=
  let temp_mean := np_mean (tempos self) in
  let temp_std := np_std (tempos self) in
  most_freq_key <- get_most_freq_value (freq_key self) ;;
  min_pitch <- py_int (np_mean_int (min_pitch self)) ;;
  max_pitch <- py_int (np_mean_int (max_pitch self)) ;;
  Ok (temp_mean, temp_std, most_freq_key, min_pitch, max_pitch).

(** [Preprocess.piano_roll_filter], on the files held in [self.pms]. *)
Definition piano_roll_filter (pms : list PrettyMIDI) : result ndarray :=
  report <- generate_midi_files_report pms ;;
  '(temp_mean, temp_std, key, left_pitch_bounary, right_pitch_boundary)
    <- aggregation_report report ;;
  piano_rolls <- filter_loop temp_mean temp_std left_pitch_bounary right_pitch_boundary pms [] ;;
  result <- np_hstack piano_rolls ;;
  Ok (transpose result).

(** The inner loop of [Preprocess._file_filter], over the files of one
    directory; [pms] is [self.pms]. *)
Fixpoint files_loop (dirPath : string) (files : list string) (pms : list PrettyMIDI)
    : result (list PrettyMIDI) :=
  match files with
  | [] => Ok pms
  | file :: rest =>
      let path := join dirPath file in
      pms' <- try_except
                (pm <- PrettyMIDI_of_path path ;;
                 if (length (key_signature_changes pm) =? 1)%nat
                    && (length (time_signature_changes pm) =? 1)%nat
                 then Ok (pms ++ [pm])
                 else Ok pms)
                (Ok pms) ;;
      files_loop dirPath rest pms'
  end.

(** The outer loop, over the triples [os.walk] yields. *)
Fixpoint walk_loop (tree : list (string * list string * list string))
    (pms : list PrettyMIDI) : result (list PrettyMIDI) :=
  match tree with
  | [] => Ok pms
  | (dirPath, _, files) :: rest =>
      pms' <- files_loop dirPath files pms ;;
      walk_loop rest pms'
  end.

(** [Preprocess._file_filter]; [tree] is what [walk(self.path)] yields. *)
Definition _file_filter (tree : list (string * list string * list string))
    : result (list PrettyMIDI) :=
  walk_loop tree [].

(** The script's body after argument parsing: load, then filter and
    assemble; the exit status is 1 on any exception. *)
Definition run (tree : list (string * list string * list string)) : result ndarray :=
  pms <- _file_filter tree ;;
  piano_roll_filter pms.

Definition main (tree : list (string * list string * list string))
    : Z * option (nat * nat) :=
  match run tree with
  | Ok result => (0, Some (shape result))
  | Err _ => (1, None)
  end.

End Preprocess.

(** The condition under which the loop of [piano_roll_filter] keeps a file,
    and the slice it keeps of it. *)
Definition range_filter_admits (temp_mean temp_std : float)
    (left_pitch_bounary right_pitch_boundary : Z) (pm : PrettyMIDI) : bool :=
  match estimate_tempo pm, _get_min_max_pitch pm with
  | Ok tempo, Ok (min_pitch, max_pitch) =>
      _is_in_tempo_range tempo temp_mean temp_std
      && _is_in_pitch_range min_pitch max_pitch left_pitch_bounary right_pitch_boundary
  | _, _ => false
  end.

Definition sliced_roll (left_pitch_bounary right_pitch_boundary : Z) (pm : PrettyMIDI)
    : ndarray :=
  getitem_slice (get_piano_roll pm) left_pitch_bounary (right_pitch_boundary + 1).

(** The loader's test on a parsed file. *)
Definition one_key_one_time (pm : PrettyMIDI) : bool :=
  (length (key_signature_changes pm) =? 1)%nat
  && (length (time_signature_changes pm) =? 1)%nat.

(** The values of the computations that did not raise, in order. *)
Fixpoint successes {A : Type} (l : list (result A)) : list A :=
  match l with
  | [] => []
  | Ok a :: r => a :: successes r
  | Err _ :: r => successes r
  end.

(** The parser's outcome on every file of the tree, in traversal order. *)
Definition parse_tree (join : string -> string -> string)
    (PrettyMIDI_of_path : string -> result PrettyMIDI)
    (tree : list (string * list string * list string)) : list (result PrettyMIDI) :=
  flat_map (fun '(dirPath, _, files) =>
              map (fun file => PrettyMIDI_of_path (join dirPath file)) files) tree.

(** Per-file summaries, total on files that have notes and a key signature. *)
Definition lowest_pitch (pm : PrettyMIDI) : Z :=
  match all_pitches pm with
  | [] => 0
  | x :: r => fold_left Z.min r x
  end.

Definition highest_pitch (pm : PrettyMIDI) : Z :=
  match all_pitches pm with
  | [] => 0
  | x :: r => fold_left Z.max r x
  end.

Definition first_key (pm : PrettyMIDI) : Z :=
  match key_signature_changes pm with
  | [] => 0
  | ks :: _ => key_number ks
  end.

(** The integer mean of a non-empty list, truncated. *)
Definition truncated_mean (l : list Z) : Z :=
  Z.quot (sum_Z l) (Z.of_nat (length l)).

Definition low_pitch_bound (pms : list PrettyMIDI) : Z :=
  truncated_mean (map lowest_pitch pms).

Definition high_pitch_bound (pms : list PrettyMIDI) : Z :=
  truncated_mean (map highest_pitch pms).

(** The tempo estimates of the files whose tempo can be estimated, in the
    order of the corpus: the report's tempos when it can be made. *)
Definition tempo_estimates (pms : list PrettyMIDI) : list float :=
  successes (map estimate_tempo pms).

(** [pm.estimate_tempo()] returns an estimate. *)
Definition tempo_estimable (pm : PrettyMIDI) : Prop :=
  is_ok (estimate_tempo pm) = true.

(** The pitches of the file are MIDI pitches. *)
Definition midi_pitches (pm : PrettyMIDI) : Prop :=
  Forall (fun p => 0 <= p <= 127) (all_pitches pm).

(** A corpus on which [np_mean_int] is the mean numpy computes. *)
Definition midi_corpus (pms : list PrettyMIDI) : Prop :=
  Forall midi_pitches pms /\ Z.of_nat (length pms) < 2 ^ 46.

(** The files the Range Filter admits, in the order of the corpus. *)
Definition admitted (np_mean np_std : list float -> float) (pms : list PrettyMIDI)
    : list PrettyMIDI :=
  filter (range_filter_admits (np_mean (tempo_estimates pms))
                              (np_std (tempo_estimates pms))
                              (low_pitch_bound pms) (high_pitch_bound pms)) pms.

(** ** Data for the examples

    The textbook mean and population standard deviation, summed left to
    right, stand for numpy's in the examples. *)
Definition float_of_nat (n : nat) : float :=
  PrimFloat.of_uint63 (Uint63.of_Z (Z.of_nat n)).

Definition naive_mean (l : list float) : float :=
  (fold_left PrimFloat.add l 0 / float_of_nat (length l))%float.

Definition naive_std (l : list float) : float :=
  let m := naive_mean l in
  PrimFloat.sqrt (naive_mean (map (fun x => let d := abs (x - m) in d * d)%float l)).

(** A piano roll of 128 rows and [t] columns, every cell [v]. *)
Definition constant_roll (t : nat) (v : float) : ndarray :=
  {| nrows := 128; ncols := t; cells := repeat (repeat v t) 128 |}.

(** A piano roll of 128 rows and [t] columns whose cell at pitch [p] and
    time [j] is [1000 * p + j]. *)
Definition graded_roll (t : nat) : ndarray :=
  {| nrows := 128;
     ncols := t;
     cells := map (fun p =>
                     map (fun j => PrimFloat.of_uint63
                                     (Uint63.of_Z (1000 * Z.of_nat p + Z.of_nat j)))
                         (seq 0 t))
                  (seq 0 128) |}.

(** A file with one instrument playing the given pitches, one key signature
    and one time signature. *)
Definition simple_track (pitches : list Z) (tempo : float) (t : nat) : PrettyMIDI :=
  {| instruments := [mk_Instrument (map (mk_Note 100) pitches)];
     key_signature_changes := [mk_KeySignature 0];
     time_signature_changes := [mk_TimeSignature 4 4];
     tempo_changes := [tempo];
     estimate_tempo := Ok tempo;
     get_piano_roll := graded_roll t |}.

Definition posix_join (a b : string) : string := (a ++ "/" ++ b)%string.

(** A parser given by a table of files; any other path fails to parse. *)
Fixpoint parser_of (table : list (string * PrettyMIDI)) (path : string)
    : result PrettyMIDI :=
  match table with
  | [] => Err (OtherError "not a MIDI file")
  | (p, pm) :: r => if String.eqb p path then Ok pm else parser_of r path
  end.

(** One key signature, one time signature, two tempo declarations. *)
Definition two_tempo_track : PrettyMIDI :=
  {| instruments := [mk_Instrument [mk_Note 100 60; mk_Note 100 64]];
     key_signature_changes := [mk_KeySignature 0];
     time_signature_changes := [mk_TimeSignature 4 4];
     tempo_changes := [120; 90]%float;
     estimate_tempo := Ok 120%float;
     get_piano_roll := constant_roll 10 0 |}.

(** Two key signatures. *)
Definition two_key_track : PrettyMIDI :=
  {| instruments := [mk_Instrument [mk_Note 100 60; mk_Note 100 64]];
     key_signature_changes := [mk_KeySignature 0; mk_KeySignature 7];
     time_signature_changes := [mk_TimeSignature 4 4];
     tempo_changes := [120]%float;
     estimate_tempo := Ok 120%float;
     get_piano_roll := constant_roll 10 0 |}.

(** A file without notes: the library has nothing to estimate a tempo from. *)
Definition silent_track : PrettyMIDI :=
  {| instruments := [mk_Instrument []];
     key_signature_changes := [mk_KeySignature 0];
     time_signature_changes := [mk_TimeSignature 4 4];
     tempo_changes := [120]%float;
     estimate_tempo :=
       Err (OtherError "Can't provide a global tempo estimate when there are fewer than two notes.");
     get_piano_roll := constant_roll 10 0 |}.

Definition corpus_tree (files : list string) : list (string * list string * list string) :=
  [("corpus"%string, [], files)].

Definition four_track_corpus : list PrettyMIDI :=
  [simple_track [60; 64] 119 50;
   simple_track [59; 65] 100 20;
   simple_track [60; 64] 121 30;
   simple_track [61; 65] 140 7].

Definition single_track_corpus : list PrettyMIDI :=
  [simple_track [60; 64] 120 10].

(** ** The rest of the module *)

(** [FileReport.get_most_freq_value] with its [reversed] argument:
    [sorted(..., reverse=False)] is the stable ascending sort. *)
Fixpoint insert_asc (x : Z * nat) (s : list (Z * nat)) : list (Z * nat) :=
  match s with
  | [] => [x]
  | y :: s' => if (snd y <? snd x)%nat then y :: insert_asc x s' else x :: y :: s'
  end.

Definition py_sorted_by_count (items : list (Z * nat)) (reverse : bool)
    : list (Z * nat) :=
  if reverse then sorted_desc items else fold_right insert_asc [] items.

Definition get_most_freq_value_reversed (keys : list (Z * nat)) (reversed : bool)
    : result Z :=
  kv <- getitem0 (py_sorted_by_count keys reversed) ;;
  Ok (fst kv).

(** The count a [Counter] holds for a key, 0 for a key it does not hold. *)
Fixpoint lookup_count (c : list (Z * nat)) (k : Z) : nat :=
  match c with
  | [] => 0%nat
  | (k', n) :: r => if k =? k' then n else lookup_count r k
  end.

(** The distinct keys of a list, in order of first occurrence. *)
Definition first_occurrences (keys : list Z) : list Z :=
  fold_left (fun acc k => if existsb (Z.eqb k) acc then acc else acc ++ [k]) keys [].

(** A file the report can be made for: its tempo can be estimated, and it
    has a key signature and a note. *)
Definition reportable (pm : PrettyMIDI) : Prop :=
  tempo_estimable pm /\ key_signature_changes pm <> [] /\ all_pitches pm <> [].

(** The file the report stops at, and why. *)
Definition stops_report (pm : PrettyMIDI) (e : exn) : Prop :=
  estimate_tempo pm = Err e
  \/ (tempo_estimable pm /\ key_signature_changes pm = [] /\ e = IndexError_list_index)
  \/ (tempo_estimable pm /\ key_signature_changes pm <> [] /\ all_pitches pm = []
      /\ e = EmptyTrackError).

(** The error of the first file the report cannot be made for, if any. *)
Fixpoint first_report_error (pms : list PrettyMIDI) : option exn :=
  match pms with
  | [] => None
  | pm :: rest =>
      match estimate_tempo pm, key_signature_changes pm, all_pitches pm with
      | Err e, _, _ => Some e
      | Ok _, [], _ => Some IndexError_list_index
      | Ok _, _ :: _, [] => Some ValueError_empty_sequence
      | Ok _, _ :: _, _ :: _ => first_report_error rest
      end
  end.

(** The same file with every key number replaced. *)
Definition with_key_numbers (f : Z -> Z) (pm : PrettyMIDI) : PrettyMIDI :=
  {| instruments := instruments pm;
     key_signature_changes :=
       map (fun ks => mk_KeySignature (f (key_number ks))) (key_signature_changes pm);
     time_signature_changes := time_signature_changes pm;
     tempo_changes := tempo_changes pm;
     estimate_tempo := estimate_tempo pm;
     get_piano_roll := get_piano_roll pm |}.

(** What the script can raise: the [ValueError]s of the argument parser, or
    an exception of the rest of the module. *)
Inductive script_exn : Type :=
| ValueError (msg : string)
| Raised (e : exn).

(** [l[1]] *)
Definition getitem1 {A : Type} (l : list A) : result A :=
  match l with
  | _ :: x :: _ => Ok x
  | _ => Err IndexError_list_index
  end.

Section Script.

(** [os.path.isdir], [os.path.abspath] and [os.walk]. *)
Variable isdir : string -> bool.
Variable abspath : string -> string.
Variable walk : string -> list (string * list string * list string).

Variable np_mean : list float -> float.
Variable np_std : list float -> float.
Variable join : string -> string -> string.
Variable PrettyMIDI_of_path : string -> result PrettyMIDI.

(** [Preprocess._cli_arg_parser]: [self_argv] is [self.argv], [argv] is the
    module-level [sys.argv] the method reads the path from.  The result is
    [self.path]. *)
Definition _cli_arg_parser (argv self_argv : list string) : script_exn + string :=
  if negb (length self_argv =? 2)%nat
  then inl (ValueError "path of folder must be provided")
  else
    match getitem1 self_argv with
    | Err e => inl (Raised e)
    | Ok arg =>
        if isdir arg
        then match getitem1 argv with
             | Err e => inl (Raised e)
             | Ok arg' => inr (abspath arg')
             end
        else inl (ValueError "provided path is not a folder")
    end.

(** [Preprocess.__init__]: the object's [path] and [pms]. *)
Definition Preprocess_init (argv self_argv : list string)
    : script_exn + (string * list PrettyMIDI) :=
  match _cli_arg_parser argv self_argv with
  | inl e => inl e
  | inr path =>
      match _file_filter join PrettyMIDI_of_path (walk path) with
      | Err e => inl (Raised e)
      | Ok pms => inr (path, pms)
      end
  end.

(** The [__main__] block: the exit status and the shape printed. *)
Definition script_main (argv : list string) : Z * option (nat * nat) :=
  match Preprocess_init argv argv with
  | inl _ => (1, None)
  | inr (_, pms) =>
      match piano_roll_filter np_mean np_std pms with
      | Ok result => (0, Some (shape result))
      | Err _ => (1, None)
      end
  end.

End Script.

(** A file system with the single directory [corpus]. *)
Definition corpus_isdir (path : string) : bool := String.eqb path "corpus".

Definition corpus_walk (files : list string) (path : string)
    : list (string * list string * list string) :=
  if String.eqb path "corpus" then corpus_tree files else [].

(** Four files in the keys 2, 0, 2, 0. *)
Definition keyed_corpus : list PrettyMIDI :=
  [with_key_numbers (fun _ => 2) (simple_track [60; 64] 119 50);
   with_key_numbers (fun _ => 0) (simple_track [59; 65] 100 20);
   with_key_numbers (fun _ => 2) (simple_track [60; 64] 121 30);
   with_key_numbers (fun _ => 0) (simple_track [61; 65] 140 7)].

(** The four-file corpus as files of the directory [corpus]. *)
Definition four_track_files : list string :=
  ["a.mid"; "b.mid"; "c.mid"; "d.mid"]%string.

Definition four_track_table : list (string * PrettyMIDI) :=
  [("corpus/a.mid"%string, simple_track [60; 64] 119 50);
   ("corpus/b.mid"%string, simple_track [59; 65] 100 20);
   ("corpus/c.mid"%string, simple_track [60; 64] 121 30);
   ("corpus/d.mid"%string, simple_track [61; 65] 140 7)].

(** A file with a single note: it has a lowest and a highest pitch, but the
    library has too little to estimate a tempo from. *)
Definition one_note_track : PrettyMIDI :=
  {| instruments := [mk_Instrument [mk_Note 100 60]];
     key_signature_changes := [mk_KeySignature 0];
     time_signature_changes := [mk_TimeSignature 4 4];
     tempo_changes := [120]%float;
     estimate_tempo :=
       Err (OtherError "Can't provide a global tempo estimate when there are fewer than two notes.");
     get_piano_roll := constant_roll 10 0 |}.

(** ** Facts about binary64 comparison *)

Lemma SFcompare_refl_not_Lt (x : spec_float) : SFcompare x x <> Some Lt.
Proof.
  destruct x as [s | s | | s m e]; simpl; try discriminate.
  - destruct s; discriminate.
  - change (Pos.compare_cont Eq m m) with (Pos.compare m m).
    rewrite Z.compare_refl, Pos.compare_refl.
    destruct s; discriminate.
Qed.

Lemma SFltb_irrefl (x : spec_float) : SFltb x x = false.
Proof.
  unfold SFltb.
  destruct (SFcompare x x) as [[ | | ] | ] eqn:E; try reflexivity.
  exfalso. exact (SFcompare_refl_not_Lt x E).
Qed.

Lemma ltb_irrefl (x : float) : (x <? x)%float = false.
Proof. rewrite ltb_spec. apply SFltb_irrefl. Qed.

(** The kernel's strict comparison is asymmetric. *)
Lemma SFltb_asym (x y : spec_float) : SFltb x y = true -> SFltb y x = false.
Proof.
  unfold SFltb.
  destruct x as [sx | sx | | sx mx ex], y as [sy | sy | | sy my ey]; simpl;
    try discriminate; try reflexivity;
    try (destruct sx; discriminate || reflexivity);
    try (destruct sy; discriminate || reflexivity);
    try (destruct sx, sy; discriminate || reflexivity).
  change (Pos.compare_cont Eq mx my) with (Pos.compare mx my).
  change (Pos.compare_cont Eq my mx) with (Pos.compare my mx).
  rewrite (Z.compare_antisym ey ex), (Pos.compare_antisym my mx).
  destruct sx, sy; try discriminate; try reflexivity;
    destruct (ey ?= ex); simpl; try discriminate; try reflexivity;
    destruct (my ?= mx)%positive; simpl; discriminate || reflexivity.
Qed.

(** Two zeros compare alike against anything. *)
Lemma SFcompare_zero_sign (s s' : bool) (t : spec_float) :
  SFcompare t (S754_zero s) = SFcompare t (S754_zero s').
Proof. destruct t; reflexivity. Qed.

Lemma SFadd_zero_r (x : spec_float) (s : bool) :
  (exists s', x = S754_zero s' /\ exists s'', SF64add x (S754_zero s) = S754_zero s'')
  \/ SF64add x (S754_zero s) = x.
Proof.
  destruct x as [sx | sx | | sx mx ex]; simpl.
  - left. exists sx. split; [reflexivity|]. destruct sx, s; eexists; reflexivity.
  - right. reflexivity.
  - right. reflexivity.
  - right. reflexivity.
Qed.

Lemma SFsub_zero_r (x : spec_float) (s : bool) :
  (exists s', x = S754_zero s' /\ exists s'', SF64sub x (S754_zero s) = S754_zero s'')
  \/ SF64sub x (S754_zero s) = x.
Proof.
  destruct x as [sx | sx | | sx mx ex]; simpl.
  - left. exists sx. split; [reflexivity|]. destruct sx, s; eexists; reflexivity.
  - right. reflexivity.
  - right. reflexivity.
  - right. reflexivity.
Qed.

(** Nothing lies strictly between [m - z] and [m + z] when [z] is a zero. *)
Lemma SF_no_float_between (m t : spec_float) (s : bool) :
  SFltb (SF64sub m (S754_zero s)) t && SFltb t (SF64add m (S754_zero s)) = false.
Proof.
  destruct (SFltb (SF64sub m (S754_zero s)) t) eqn:Hlo; [simpl | reflexivity].
  destruct (SFsub_zero_r m s) as [(s1 & Hm & s2 & Hsub) | Hsub];
    destruct (SFadd_zero_r m s) as [(s3 & Hm' & s4 & Hadd) | Hadd];
    rewrite Hsub in Hlo; rewrite Hadd.
  - apply SFltb_asym in Hlo. unfold SFltb in *.
    rewrite (SFcompare_zero_sign s4 s2). exact Hlo.
  - subst m. apply SFltb_asym in Hlo. unfold SFltb in *.
    rewrite (SFcompare_zero_sign s1 s2). exact Hlo.
  - subst m. apply SFltb_asym in Hlo. unfold SFltb in *.
    rewrite (SFcompare_zero_sign s4 s3). exact Hlo.
  - apply SFltb_asym. exact Hlo.
Qed.


(** ** The range tests *)

(** A file with notes and a tempo estimate is admitted exactly when it
    passes both tests, on the estimate and on its lowest and highest pitch. *)
Lemma range_filter_admits_iff (m s : float) (l h : Z) (pm : PrettyMIDI) (tempo : float) :
  estimate_tempo pm = Ok tempo ->
  all_pitches pm <> [] ->
  range_filter_admits m s l h pm = true
  <-> _is_in_tempo_range tempo m s = true
      /\ _is_in_pitch_range (lowest_pitch pm) (highest_pitch pm) l h = true.
Proof.
  unfold range_filter_admits, _get_min_max_pitch, lowest_pitch, highest_pitch.
  intros ->.
  destruct (all_pitches pm) as [| x r]; [contradiction|]. intros _. simpl.
  apply andb_true_iff.
Qed.

(** An admitted file has a tempo estimate and a note. *)
Lemma range_filter_admits_inv (m s : float) (l h : Z) (pm : PrettyMIDI) :
  range_filter_admits m s l h pm = true ->
  exists tempo, estimate_tempo pm = Ok tempo /\ all_pitches pm <> [].
Proof.
  unfold range_filter_admits, _get_min_max_pitch.
  destruct (estimate_tempo pm) as [tempo | e]; [|discriminate].
  destruct (all_pitches pm) as [| x r]; [discriminate|].
  intros _. exists tempo. split; [reflexivity | discriminate].
Qed.

(** C2: the tempo test holds exactly when [mean - std < tempo < mean + std],
    both comparisons strict; a tempo equal to either bound fails it, as do 110
    and 130 for mean 120 and std 10, while 115 passes. *)
Theorem tempo_range_is_open_interval :
  (forall tempo mean std : float,
      _is_in_tempo_range tempo mean std = true
      <-> (mean - std <? tempo)%float = true /\ (tempo <? mean + std)%float = true)
  /\ (forall mean std : float, _is_in_tempo_range (mean - std) mean std = false)
  /\ (forall mean std : float, _is_in_tempo_range (mean + std) mean std = false)
  /\ (forall (mean std : float) (low high : Z) (pm : PrettyMIDI),
         range_filter_admits mean std low high pm = true ->
         exists tempo,
           estimate_tempo pm = Ok tempo
           /\ (mean - std <? tempo)%float = true
           /\ (tempo <? mean + std)%float = true)
  /\ _is_in_tempo_range 110 120 10 = false
  /\ _is_in_tempo_range 130 120 10 = false
  /\ _is_in_tempo_range 115 120 10 = true.
Proof.
  assert (Hiff : forall tempo mean std : float,
             _is_in_tempo_range tempo mean std = true
             -> (mean - std <? tempo)%float = true /\ (tempo <? mean + std)%float = true).
  { intros tempo mean std H. unfold _is_in_tempo_range in H.
    destruct (mean - std <? tempo)%float; [simpl in H | discriminate].
    destruct (tempo <? mean + std)%float; [split; reflexivity | discriminate]. }
  split; [intros tempo mean std; split; [apply Hiff|] |].
  { intros [Hlo Hhi]. unfold _is_in_tempo_range. rewrite Hlo, Hhi. reflexivity. }
  split.
  { intros mean std. unfold _is_in_tempo_range. rewrite ltb_irrefl. reflexivity. }
  split.
  { intros mean std. unfold _is_in_tempo_range. rewrite ltb_irrefl, andb_false_r.
    reflexivity. }
  split; [|repeat split].
  intros mean std low high pm H.
  destruct (range_filter_admits_inv _ _ _ _ _ H) as (tempo & Ht & Hn).
  exists tempo. split; [exact Ht|]. apply Hiff.
  apply (range_filter_admits_iff mean std low high pm tempo Ht Hn) in H.
  exact (proj1 H).
Qed.

(** C3: the pitch test holds exactly when [left <= low] and [high <= right],
    both bounds included; a file spanning exactly the bounds passes, one
    whose lowest pitch is one below the left bound fails. *)
Theorem pitch_range_is_closed_interval :
  (forall low_pitch high_pitch left_boundary right_boundary : Z,
      _is_in_pitch_range low_pitch high_pitch left_boundary right_boundary = true
      <-> low_pitch >= left_boundary /\ high_pitch <= right_boundary)
  /\ (forall left_boundary right_boundary : Z,
         _is_in_pitch_range left_boundary right_boundary left_boundary right_boundary = true)
  /\ (forall high_pitch left_boundary right_boundary : Z,
         _is_in_pitch_range (left_boundary - 1) high_pitch left_boundary right_boundary = false)
  /\ (forall (mean std : float) (low high : Z) (pm : PrettyMIDI),
         all_pitches pm <> [] ->
         range_filter_admits mean std low high pm = true ->
         lowest_pitch pm >= low /\ highest_pitch pm <= high)
  /\ _is_in_pitch_range 21 108 21 108 = true
  /\ _is_in_pitch_range 20 108 21 108 = false.
Proof.
  assert (Hiff : forall lo hi l r,
             _is_in_pitch_range lo hi l r = true <-> lo >= l /\ hi <= r).
  { intros lo hi l r. unfold _is_in_pitch_range.
    destruct (lo >=? l) eqn:E1, (hi <=? r) eqn:E2; simpl;
      rewrite ?Z.geb_leb in E1;
      rewrite ?Z.leb_le, ?Z.leb_gt in E1, E2;
      split; intros H; try discriminate; try reflexivity; lia. }
  split; [exact Hiff|].
  split; [intros l r; apply Hiff; lia|].
  split.
  { intros hi l r.
    destruct (_is_in_pitch_range (l - 1) hi l r) eqn:E; [|reflexivity].
    apply Hiff in E. lia. }
  split; [|split; reflexivity].
  intros mean std low high pm Hn H.
  destruct (range_filter_admits_inv _ _ _ _ _ H) as (tempo & Ht & _).
  apply (range_filter_admits_iff mean std low high pm tempo Ht Hn) in H.
  destruct H as [_ H]. apply Hiff in H. exact H.
Qed.

(** ** The filtering loop *)

Lemma filter_loop_spec (m s : float) (l h : Z) (pms : list PrettyMIDI) :
  Forall (fun pm => tempo_estimable pm /\ all_pitches pm <> []) pms ->
  forall acc,
    filter_loop m s l h pms acc
    = Ok (acc ++ map (sliced_roll l h) (filter (range_filter_admits m s l h) pms)).
Proof.
  induction 1 as [| pm rest [Ht Hpm] _ IH]; intros acc; simpl.
  - rewrite app_nil_r. reflexivity.
  - unfold range_filter_admits, _get_min_max_pitch.
    unfold tempo_estimable in Ht.
    destruct (estimate_tempo pm) as [tempo | e]; [|discriminate].
    destruct (all_pitches pm) as [| p ps] eqn:Hp; [contradiction|].
    simpl.
    destruct (_is_in_tempo_range tempo m s
              && _is_in_pitch_range (fold_left Z.min ps p) (fold_left Z.max ps p) l h).
    + rewrite IH. simpl. rewrite <- app_assoc. reflexivity.
    + apply IH.
Qed.

Lemma filter_loop_keeps_nothing (m s : float) (l h : Z) (pms : list PrettyMIDI) :
  (forall tempo, _is_in_tempo_range tempo m s = false) ->
  forall acc rolls, filter_loop m s l h pms acc = Ok rolls -> rolls = acc.
Proof.
  intros Hall.
  induction pms as [| pm rest IH]; intros acc rolls; simpl.
  - intros H. injection H as <-. reflexivity.
  - destruct (estimate_tempo pm) as [tempo | e]; simpl; [|discriminate].
    destruct (_get_min_max_pitch pm) as [[lo hi] | e]; simpl; [|discriminate].
    rewrite (Hall tempo). simpl. apply IH.
Qed.

Lemma report_loop_tempos (pms : list PrettyMIDI) :
  forall ts ks mx mn ts' ks' mx' mn',
    report_loop pms ts ks mx mn = Ok (ts', ks', mx', mn') ->
    ts' = ts ++ tempo_estimates pms.
Proof.
  unfold tempo_estimates.
  induction pms as [| pm rest IH]; intros ts ks mx mn ts' ks' mx' mn'; simpl.
  - intros H. injection H as <- _ _ _. rewrite app_nil_r. reflexivity.
  - destruct (estimate_tempo pm) as [tempo | e]; simpl; [|discriminate].
    destruct (getitem0 (key_signature_changes pm)) as [k | e]; simpl; [|discriminate].
    destruct (_get_min_max_pitch pm) as [[lo hi] | e]; simpl; [|discriminate].
    intros H. apply IH in H. rewrite H, <- app_assoc. reflexivity.
Qed.

(** Equality with a zero, as the kernel decides it, means being a zero. *)
Lemma eqb_zero_inv (x : float) :
  (x =? 0)%float = true -> exists s, Prim2SF x = S754_zero s.
Proof.
  rewrite eqb_spec. unfold SFeqb.
  change (Prim2SF 0%float) with (S754_zero false).
  destruct (Prim2SF x) as [s | s | | s m e]; simpl.
  - intros _. exists s. reflexivity.
  - destruct s; discriminate.
  - discriminate.
  - destruct s; discriminate.
Qed.

Lemma tempo_range_empty_at_zero_std (tempo mean std : float) :
  (std =? 0)%float = true -> _is_in_tempo_range tempo mean std = false.
Proof.
  intros Hz. destruct (eqb_zero_inv std Hz) as [s Hs].
  unfold _is_in_tempo_range.
  rewrite !ltb_spec, sub_spec, add_spec, Hs.
  rewrite SF_no_float_between. reflexivity.
Qed.

(** C7: when the standard deviation of the tempo estimates is zero, no tempo
    lies in the interval around the mean, the filtering loop keeps no file,
    and [piano_roll_filter] returns no matrix. *)
Theorem zero_std_admits_no_track
    (np_mean np_std : list float -> float) (pms : list PrettyMIDI) :
  (np_std (tempo_estimates pms) =? 0)%float = true ->
  (forall tempo mean : float,
      _is_in_tempo_range tempo mean (np_std (tempo_estimates pms)) = false)
  /\ (forall (mean : float) (low high : Z) (pm : PrettyMIDI),
         range_filter_admits mean (np_std (tempo_estimates pms)) low high pm = false)
  /\ (forall (mean : float) (low high : Z) (rolls : list ndarray),
         filter_loop mean (np_std (tempo_estimates pms)) low high pms [] = Ok rolls ->
         rolls = [])
  /\ is_ok (piano_roll_filter np_mean np_std pms) = false.
Proof.
  intros Hz.
  assert (Hempty : forall tempo mean,
             _is_in_tempo_range tempo mean (np_std (tempo_estimates pms)) = false).
  { intros tempo mean. apply tempo_range_empty_at_zero_std. exact Hz. }
  split; [exact Hempty|].
  split.
  { intros mean low high pm. unfold range_filter_admits.
    destruct (estimate_tempo pm) as [tempo | e]; [|reflexivity].
    destruct (_get_min_max_pitch pm) as [[lo hi] | e]; [|reflexivity].
    rewrite Hempty. reflexivity. }
  split.
  { intros mean low high rolls H.
    apply (filter_loop_keeps_nothing _ _ _ _ pms) in H; [exact H|].
    intros tempo. apply Hempty. }
  unfold piano_roll_filter, generate_midi_files_report.
  destruct (report_loop pms [] [] [] []) as [[[[ts ks] mx] mn] | e] eqn:Hrep;
    simpl; [|reflexivity].
  apply report_loop_tempos in Hrep. simpl in Hrep. subst ts.
  unfold aggregation_report. simpl.
  destruct (get_most_freq_value (Counter ks)) as [k | e]; simpl; [|reflexivity].
  destruct (py_int (np_mean_int mn)) as [lo | e]; simpl; [|reflexivity].
  destruct (py_int (np_mean_int mx)) as [hi | e]; simpl; [|reflexivity].
  destruct (filter_loop _ _ lo hi pms []) as [rolls | e] eqn:Hloop; simpl; [|reflexivity].
  apply (filter_loop_keeps_nothing _ _ _ _ pms) in Hloop.
  - subst rolls. reflexivity.
  - intros tempo. apply Hempty.
Qed.

(** A single file: the standard deviation of one tempo is zero. *)
Lemma zero_std_admits_no_track_witness :
  (naive_std (tempo_estimates single_track_corpus) =? 0)%float = true
  /\ is_ok (piano_roll_filter naive_mean naive_std single_track_corpus) = false.
Proof.
  split.
  - vm_compute. reflexivity.
  - apply (zero_std_admits_no_track naive_mean naive_std single_track_corpus).
    vm_compute. reflexivity.
Defined.

(** ** The Corpus Loader *)

Lemma files_loop_spec (join : string -> string -> string)
    (ctor : string -> result PrettyMIDI) (dirPath : string) (files : list string) :
  forall pms,
    files_loop join ctor dirPath files pms
    = Ok (pms ++ filter one_key_one_time
                   (successes (map (fun file => ctor (join dirPath file)) files))).
Proof.
  induction files as [| file rest IH]; intros pms; simpl.
  - rewrite app_nil_r. reflexivity.
  - destruct (ctor (join dirPath file)) as [pm | e]; simpl.
    + fold (one_key_one_time pm).
      destruct (one_key_one_time pm); simpl.
      * rewrite IH, <- app_assoc. reflexivity.
      * apply IH.
    + apply IH.
Qed.

Lemma successes_app {A : Type} (l1 l2 : list (result A)) :
  successes (l1 ++ l2) = successes l1 ++ successes l2.
Proof.
  induction l1 as [| [a | e] r IH]; simpl; [reflexivity | rewrite IH; reflexivity | exact IH].
Qed.

Lemma walk_loop_spec (join : string -> string -> string)
    (ctor : string -> result PrettyMIDI) (tree : list (string * list string * list string)) :
  forall pms,
    walk_loop join ctor tree pms
    = Ok (pms ++ filter one_key_one_time (successes (parse_tree join ctor tree))).
Proof.
  induction tree as [| [[dirPath dirs] files] rest IH]; intros pms; simpl.
  - rewrite app_nil_r. reflexivity.
  - rewrite files_loop_spec. simpl. rewrite IH.
    rewrite successes_app, filter_app, app_assoc. reflexivity.
Qed.

Lemma _file_filter_spec (join : string -> string -> string)
    (ctor : string -> result PrettyMIDI) (tree : list (string * list string * list string)) :
  _file_filter join ctor tree
  = Ok (filter one_key_one_time (successes (parse_tree join ctor tree))).
Proof. unfold _file_filter. rewrite walk_loop_spec. reflexivity. Qed.

Lemma one_key_one_time_iff (pm : PrettyMIDI) :
  one_key_one_time pm = true
  <-> length (key_signature_changes pm) = 1%nat
      /\ length (time_signature_changes pm) = 1%nat.
Proof.
  unfold one_key_one_time. rewrite andb_true_iff, !Nat.eqb_eq. reflexivity.
Qed.

(** C4: the loader returns, in traversal order, exactly the successfully
    parsed files that have one key-signature change and one time-signature
    change; a parsed file with any other count of either is not kept. *)
Theorem loader_keeps_single_key_and_time
    (join : string -> string -> string) (ctor : string -> result PrettyMIDI)
    (tree : list (string * list string * list string)) :
  exists pms,
    _file_filter join ctor tree = Ok pms
    /\ pms = filter one_key_one_time (successes (parse_tree join ctor tree))
    /\ (forall pm, In pm (successes (parse_tree join ctor tree)) ->
          (In pm pms <-> length (key_signature_changes pm) = 1%nat
                         /\ length (time_signature_changes pm) = 1%nat))
    /\ (forall pm, length (key_signature_changes pm) <> 1%nat
                   \/ length (time_signature_changes pm) <> 1%nat ->
                   ~ In pm pms).
Proof.
  exists (filter one_key_one_time (successes (parse_tree join ctor tree))).
  split; [apply _file_filter_spec|].
  split; [reflexivity|].
  split.
  - intros pm Hin. rewrite filter_In, one_key_one_time_iff. tauto.
  - intros pm Hbad Hin. apply filter_In in Hin. destruct Hin as [_ Hin].
    apply one_key_one_time_iff in Hin. tauto.
Qed.

(** C5: a file that parses, has one key signature and one time signature,
    and declares two tempos is kept by the loader, which never reads the
    tempo declarations. *)
Theorem loader_keeps_multi_tempo_file :
  length (tempo_changes two_tempo_track) = 2%nat
  /\ _file_filter posix_join (parser_of [("corpus/a.mid"%string, two_tempo_track)])
       (corpus_tree ["a.mid"%string])
     = Ok [two_tempo_track]
  /\ (forall (join : string -> string -> string) (ctor : string -> result PrettyMIDI)
             (tree : list (string * list string * list string)) (pm : PrettyMIDI),
         In (Ok pm) (parse_tree join ctor tree) ->
         one_key_one_time pm = true ->
         exists pms, _file_filter join ctor tree = Ok pms /\ In pm pms).
Proof.
  split; [reflexivity|].
  split; [reflexivity|].
  intros join ctor tree pm Hin Hone.
  eexists. split; [apply _file_filter_spec|].
  apply filter_In. split; [|exact Hone].
  clear Hone. induction (parse_tree join ctor tree) as [| [a | e] r IH]; simpl in *.
  - contradiction.
  - destruct Hin as [Heq | Hin]; [injection Heq as ->; left; reflexivity | right; auto].
  - destruct Hin as [Heq | Hin]; [discriminate | auto].
Qed.

(** C10: whatever a file's processing raises is swallowed: the loader always
    returns a list, a file whose processing raises leaves the list as it was
    and the loop goes on with the next file, and a tree without a loadable
    file gives the empty list. *)
Theorem loader_never_raises
    (join : string -> string -> string) (ctor : string -> result PrettyMIDI)
    (tree : list (string * list string * list string)) :
  (exists pms, _file_filter join ctor tree = Ok pms)
  /\ (forall (body : result (list PrettyMIDI)) (pms : list PrettyMIDI),
         is_ok (try_except body (Ok pms)) = true
         /\ (is_ok body = false -> try_except body (Ok pms) = Ok pms))
  /\ (forall (dirPath file : string) (rest : list string) (pms : list PrettyMIDI),
         is_ok (ctor (join dirPath file)) = false ->
         files_loop join ctor dirPath (file :: rest) pms
         = files_loop join ctor dirPath rest pms)
  /\ (successes (parse_tree join ctor tree) = [] -> _file_filter join ctor tree = Ok [])
  /\ _file_filter join ctor [] = Ok [].
Proof.
  split; [eexists; apply _file_filter_spec|].
  split.
  { intros body pms. destruct body; simpl; split; try reflexivity; discriminate. }
  split.
  { intros dirPath file rest pms Hfail. simpl.
    destruct (ctor (join dirPath file)); [discriminate | reflexivity]. }
  split.
  - intros Hnone. rewrite _file_filter_spec, Hnone. reflexivity.
  - reflexivity.
Qed.

(** ** The Metadata Aggregator *)

Lemma fold_min_le (r : list Z) : forall x, fold_left Z.min r x <= x.
Proof.
  induction r as [| a r IH]; intros x; simpl; [lia|].
  specialize (IH (Z.min x a)). lia.
Qed.

Lemma fold_max_ge (r : list Z) : forall x, x <= fold_left Z.max r x.
Proof.
  induction r as [| a r IH]; intros x; simpl; [lia|].
  specialize (IH (Z.max x a)). lia.
Qed.

Lemma fold_min_lower_bound (b : Z) (r : list Z) :
  forall x, b <= x -> Forall (fun p => b <= p) r -> b <= fold_left Z.min r x.
Proof.
  induction r as [| a r IH]; intros x Hx Hr; simpl; [exact Hx|].
  inversion Hr; subst. apply IH; [lia | assumption].
Qed.

Lemma fold_max_upper_bound (b : Z) (r : list Z) :
  forall x, x <= b -> Forall (fun p => p <= b) r -> fold_left Z.max r x <= b.
Proof.
  induction r as [| a r IH]; intros x Hx Hr; simpl; [exact Hx|].
  inversion Hr; subst. apply IH; [lia | assumption].
Qed.

Lemma _get_min_max_pitch_notes (pm : PrettyMIDI) :
  all_pitches pm <> [] ->
  _get_min_max_pitch pm = Ok (lowest_pitch pm, highest_pitch pm).
Proof.
  unfold _get_min_max_pitch, lowest_pitch, highest_pitch.
  destruct (all_pitches pm); [contradiction | reflexivity].
Qed.

Lemma _get_min_max_pitch_no_notes (pm : PrettyMIDI) :
  all_pitches pm = [] -> _get_min_max_pitch pm = Err EmptyTrackError.
Proof.
  unfold _get_min_max_pitch. intros ->. reflexivity.
Qed.

Lemma lowest_le_highest (pm : PrettyMIDI) : lowest_pitch pm <= highest_pitch pm.
Proof.
  unfold lowest_pitch, highest_pitch.
  destruct (all_pitches pm) as [| x r]; [lia|].
  pose proof (fold_min_le r x). pose proof (fold_max_ge r x). lia.
Qed.

Lemma getitem0_key (pm : PrettyMIDI) :
  key_signature_changes pm <> [] ->
  exists ks, getitem0 (key_signature_changes pm) = Ok ks /\ key_number ks = first_key pm.
Proof.
  unfold first_key.
  destruct (key_signature_changes pm) as [| ks r]; [contradiction|].
  intros _. exists ks. split; reflexivity.
Qed.

Lemma tempo_estimates_cons (pm : PrettyMIDI) (rest : list PrettyMIDI) (tempo : float) :
  estimate_tempo pm = Ok tempo ->
  tempo_estimates (pm :: rest) = tempo :: tempo_estimates rest.
Proof. unfold tempo_estimates. simpl. intros ->. reflexivity. Qed.

Lemma tempo_estimable_inv (pm : PrettyMIDI) :
  tempo_estimable pm -> exists tempo, estimate_tempo pm = Ok tempo.
Proof.
  unfold tempo_estimable. destruct (estimate_tempo pm) as [tempo | e]; [|discriminate].
  intros _. exists tempo. reflexivity.
Qed.

Lemma report_loop_spec (pms : list PrettyMIDI) :
  Forall reportable pms ->
  forall ts ks mx mn,
    report_loop pms ts ks mx mn
    = Ok (ts ++ tempo_estimates pms, ks ++ map first_key pms,
          mx ++ map highest_pitch pms, mn ++ map lowest_pitch pms).
Proof.
  induction 1 as [| pm rest (Ht & Hk & Hn) _ IH]; intros ts ks mx mn.
  - simpl. rewrite !app_nil_r. reflexivity.
  - destruct (tempo_estimable_inv pm Ht) as [tempo Htempo].
    rewrite (tempo_estimates_cons pm rest tempo Htempo).
    cbn [report_loop map]. rewrite Htempo. cbn [bind].
    destruct (getitem0_key pm Hk) as (k & -> & Hkey). cbn [bind].
    rewrite (_get_min_max_pitch_notes pm Hn). cbn [bind].
    rewrite IH, Hkey, <- !app_assoc. reflexivity.
Qed.

Lemma generate_midi_files_report_spec (pms : list PrettyMIDI) :
  Forall reportable pms ->
  generate_midi_files_report pms
  = Ok (mk_FileReport (tempo_estimates pms) (Counter (map first_key pms))
                      (map lowest_pitch pms) (map highest_pitch pms)).
Proof.
  intros H. unfold generate_midi_files_report.
  rewrite (report_loop_spec pms H). reflexivity.
Qed.

(** A file without notes stops the report, whatever comes before it. *)
Lemma report_loop_not_ok (pms : list PrettyMIDI) :
  Exists (fun pm => all_pitches pm = []) pms ->
  forall ts ks mx mn, is_ok (report_loop pms ts ks mx mn) = false.
Proof.
  induction pms as [| pm rest IH]; intros Hex ts ks mx mn.
  - inversion Hex.
  - cbn [report_loop].
    destruct (estimate_tempo pm) as [tempo | e]; [|reflexivity]. cbn [bind].
    destruct (getitem0 (key_signature_changes pm)) as [k | e]; [|reflexivity]. cbn [bind].
    destruct (all_pitches pm) as [| x r] eqn:Hp.
    + rewrite (_get_min_max_pitch_no_notes pm Hp). reflexivity.
    + assert (Hne : all_pitches pm <> []) by (rewrite Hp; discriminate).
      rewrite (_get_min_max_pitch_notes pm Hne). cbn [bind].
      apply IH.
      inversion Hex as [? ? Hhere | ? ? Hthere]; subst; [congruence | exact Hthere].
Qed.

(** When the loop reaches a file without notes, it ends with [min]'s error. *)
Lemma report_loop_reaches_empty_track (pre post : list PrettyMIDI) (pm : PrettyMIDI)
    (tempo : float) :
  Forall reportable pre ->
  estimate_tempo pm = Ok tempo ->
  key_signature_changes pm <> [] ->
  all_pitches pm = [] ->
  forall ts ks mx mn,
    report_loop (pre ++ pm :: post) ts ks mx mn = Err EmptyTrackError.
Proof.
  intros Hpre Htempo Hk Hn.
  induction Hpre as [| a pre' (Hta & Hka & Hna) _ IH]; intros ts ks mx mn.
  - cbn [app report_loop]. rewrite Htempo. cbn [bind].
    destruct (getitem0_key pm Hk) as (k & -> & _). cbn [bind].
    rewrite (_get_min_max_pitch_no_notes pm Hn). reflexivity.
  - cbn [app report_loop].
    destruct (tempo_estimable_inv a Hta) as [ta ->]. cbn [bind].
    destruct (getitem0_key a Hka) as (k & -> & _). cbn [bind].
    rewrite (_get_min_max_pitch_notes a Hna). cbn [bind].
    apply IH.
Qed.

Lemma Counter_add_not_nil (k : Z) (c : list (Z * nat)) : Counter_add k c <> [].
Proof.
  destruct c as [| [k' n] r]; simpl; [discriminate|].
  destruct (k =? k'); discriminate.
Qed.

Lemma Counter_fold_not_nil (keys : list Z) :
  forall c, c <> [] -> fold_left (fun c k => Counter_add k c) keys c <> [].
Proof.
  induction keys as [| k r IH]; intros c Hc; simpl; [exact Hc|].
  apply IH. apply Counter_add_not_nil.
Qed.

Lemma Counter_not_nil (keys : list Z) : keys <> [] -> Counter keys <> [].
Proof.
  unfold Counter. destruct keys as [| k r]; [contradiction|]. intros _. simpl.
  apply Counter_fold_not_nil. discriminate.
Qed.

Lemma insert_desc_not_nil (x : Z * nat) (s : list (Z * nat)) : insert_desc x s <> [].
Proof.
  destruct s as [| y s']; simpl; [discriminate|].
  destruct (snd x <? snd y)%nat; discriminate.
Qed.

Lemma get_most_freq_value_ok (items : list (Z * nat)) :
  items <> [] -> exists key, get_most_freq_value items = Ok key.
Proof.
  destruct items as [| x r]; [contradiction|]. intros _.
  unfold get_most_freq_value, sorted_desc. simpl.
  destruct (insert_desc x (fold_right insert_desc [] r)) as [| y s] eqn:E.
  - exfalso. exact (insert_desc_not_nil _ _ E).
  - exists (fst y). reflexivity.
Qed.

Lemma py_int_mean (l : list Z) :
  l <> [] -> py_int (np_mean_int l) = Ok (truncated_mean l).
Proof.
  destruct l as [| x r]; [contradiction|]. intros _.
  unfold py_int, np_mean_int, truncated_mean.
  cbn [Qnum Qden]. f_equal. f_equal.
  change (length (x :: r)) with (S (length r)).
  rewrite <- Pos.of_nat_succ, Zpos_P_of_succ_nat, Nat2Z.inj_succ. reflexivity.
Qed.

Lemma sum_Z_le (l1 l2 : list Z) : Forall2 Z.le l1 l2 -> sum_Z l1 <= sum_Z l2.
Proof. induction 1; simpl; lia. Qed.

Lemma truncated_mean_le (l1 l2 : list Z) :
  l1 <> [] -> Forall2 Z.le l1 l2 -> truncated_mean l1 <= truncated_mean l2.
Proof.
  intros Hne H. unfold truncated_mean.
  rewrite <- (Forall2_length H).
  apply Z.quot_le_mono; [|apply sum_Z_le; exact H].
  destruct l1; [contradiction | simpl; lia].
Qed.

Lemma low_le_high_bound (pms : list PrettyMIDI) :
  pms <> [] -> low_pitch_bound pms <= high_pitch_bound pms.
Proof.
  intros Hne. unfold low_pitch_bound, high_pitch_bound.
  apply truncated_mean_le.
  - destruct pms; [contradiction | discriminate].
  - clear Hne. induction pms as [| pm r IH]; simpl; constructor;
      [apply lowest_le_highest | exact IH].
Qed.

Lemma aggregation_report_spec (np_mean np_std : list float -> float)
    (pms : list PrettyMIDI) :
  pms <> [] ->
  exists key,
    aggregation_report np_mean np_std
      (mk_FileReport (tempo_estimates pms) (Counter (map first_key pms))
                     (map lowest_pitch pms) (map highest_pitch pms))
    = Ok (np_mean (tempo_estimates pms), np_std (tempo_estimates pms), key,
          low_pitch_bound pms, high_pitch_bound pms).
Proof.
  intros Hne. unfold aggregation_report. cbn [tempos freq_key min_pitch max_pitch].
  assert (Hmap : forall (A : Type) (f : PrettyMIDI -> A), map f pms <> []).
  { intros A f. destruct pms; [contradiction | discriminate]. }
  destruct (get_most_freq_value_ok (Counter (map first_key pms))) as [key Hkey].
  { apply Counter_not_nil. apply Hmap. }
  exists key. rewrite Hkey. simpl.
  rewrite !py_int_mean by apply Hmap. reflexivity.
Qed.

(** C8: on a non-empty corpus of files with MIDI pitches, each with a note,
    a tempo the library can estimate and the key signature the loader
    guarantees, the report and its aggregation succeed, the bounds are the
    truncated means of the per-file lowest and highest pitches, and the low
    bound is at most the high bound. *)
Theorem pitch_bounds_are_ordered
    (np_mean np_std : list float -> float) (pms : list PrettyMIDI) :
  pms <> [] ->
  Forall (fun pm => all_pitches pm <> []) pms ->
  Forall (fun pm => key_signature_changes pm <> []) pms ->
  Forall tempo_estimable pms ->
  midi_corpus pms ->
  exists report temp_mean temp_std key low high,
    generate_midi_files_report pms = Ok report
    /\ aggregation_report np_mean np_std report = Ok (temp_mean, temp_std, key, low, high)
    /\ min_pitch report = map lowest_pitch pms
    /\ max_pitch report = map highest_pitch pms
    /\ Forall2 Z.le (min_pitch report) (max_pitch report)
    /\ low = Z.quot (sum_Z (min_pitch report)) (Z.of_nat (length pms))
    /\ high = Z.quot (sum_Z (max_pitch report)) (Z.of_nat (length pms))
    /\ low <= high.
Proof.
  intros Hne Hn Hk Ht _.
  assert (Hrep : Forall reportable pms).
  { rewrite Forall_forall in *. intros pm Hin. repeat split; auto. }
  destruct (aggregation_report_spec np_mean np_std pms Hne) as [key Hagg].
  eexists. exists (np_mean (tempo_estimates pms)), (np_std (tempo_estimates pms)).
  exists key, (low_pitch_bound pms), (high_pitch_bound pms).
  split; [apply generate_midi_files_report_spec; assumption|].
  split; [exact Hagg|].
  cbn [min_pitch max_pitch].
  split; [reflexivity|]. split; [reflexivity|].
  split.
  { clear. induction pms as [| pm r IH]; simpl; constructor;
      [apply lowest_le_highest | exact IH]. }
  split; [unfold low_pitch_bound, truncated_mean; rewrite length_map; reflexivity|].
  split; [unfold high_pitch_bound, truncated_mean; rewrite length_map; reflexivity|].
  apply low_le_high_bound. exact Hne.
Qed.

(** The bounds of the four-file example corpus. *)
Lemma pitch_bounds_are_ordered_witness :
  exists report temp_mean temp_std key low high,
    generate_midi_files_report four_track_corpus = Ok report
    /\ aggregation_report naive_mean naive_std report
       = Ok (temp_mean, temp_std, key, low, high)
    /\ min_pitch report = map lowest_pitch four_track_corpus
    /\ max_pitch report = map highest_pitch four_track_corpus
    /\ Forall2 Z.le (min_pitch report) (max_pitch report)
    /\ low = Z.quot (sum_Z (min_pitch report)) (Z.of_nat (length four_track_corpus))
    /\ high = Z.quot (sum_Z (max_pitch report)) (Z.of_nat (length four_track_corpus))
    /\ low <= high.
Proof.
  apply (pitch_bounds_are_ordered naive_mean naive_std four_track_corpus).
  - discriminate.
  - repeat constructor; discriminate.
  - repeat constructor; discriminate.
  - repeat constructor.
  - split; [repeat constructor; cbn; lia | reflexivity].
Defined.

Lemma loaded_have_key_signature (join : string -> string -> string)
    (ctor : string -> result PrettyMIDI)
    (tree : list (string * list string * list string)) (pms : list PrettyMIDI) :
  _file_filter join ctor tree = Ok pms ->
  Forall (fun pm => key_signature_changes pm <> []) pms.
Proof.
  rewrite _file_filter_spec. intros H. injection H as <-.
  apply Forall_forall. intros pm Hin.
  apply filter_In in Hin. destruct Hin as [_ Hone].
  apply one_key_one_time_iff in Hone. destruct Hone as [Hk _].
  intros Hnil. rewrite Hnil in Hk. discriminate.
Qed.

Lemma piano_roll_filter_no_notes (np_mean np_std : list float -> float)
    (pms : list PrettyMIDI) :
  Exists (fun pm => all_pitches pm = []) pms ->
  is_ok (generate_midi_files_report pms) = false
  /\ is_ok (piano_roll_filter np_mean np_std pms) = false.
Proof.
  intros Hex.
  assert (Hrep : is_ok (generate_midi_files_report pms) = false).
  { unfold generate_midi_files_report.
    pose proof (report_loop_not_ok pms Hex [] [] [] []) as H.
    destruct (report_loop pms [] [] [] []) as [[[[ts ks] mx] mn] | e];
      [discriminate | reflexivity]. }
  split; [exact Hrep|].
  unfold piano_roll_filter.
  destruct (generate_midi_files_report pms); [discriminate | reflexivity].
Qed.

Lemma piano_roll_filter_reaches_empty_track (np_mean np_std : list float -> float)
    (pre post : list PrettyMIDI) (pm : PrettyMIDI) (tempo : float) :
  Forall reportable pre ->
  estimate_tempo pm = Ok tempo ->
  key_signature_changes pm <> [] ->
  all_pitches pm = [] ->
  generate_midi_files_report (pre ++ pm :: post) = Err EmptyTrackError
  /\ piano_roll_filter np_mean np_std (pre ++ pm :: post) = Err EmptyTrackError.
Proof.
  intros Hpre Htempo Hk Hn.
  assert (Hrep : generate_midi_files_report (pre ++ pm :: post) = Err EmptyTrackError).
  { unfold generate_midi_files_report.
    rewrite (report_loop_reaches_empty_track pre post pm tempo Hpre Htempo Hk Hn).
    reflexivity. }
  split; [exact Hrep|].
  unfold piano_roll_filter. rewrite Hrep. reflexivity.
Qed.

(** C9: [_get_min_max_pitch] on a file without notes raises the error of
    [min] on an empty list, and nothing in the module catches it.  When a
    file without notes is among the loaded ones, the report,
    [piano_roll_filter] and the run return nothing and the exit status is
    1: the file is not skipped.  When the report's loop reaches the
    computation for such a file (the files before it can be reported and
    the library returns a tempo estimate for it), the error the report,
    [piano_roll_filter] and the run end with is that of [min]. *)
Theorem empty_track_aborts_run
    (np_mean np_std : list float -> float)
    (join : string -> string -> string) (ctor : string -> result PrettyMIDI)
    (tree : list (string * list string * list string)) (pms : list PrettyMIDI) :
  _file_filter join ctor tree = Ok pms ->
  Exists (fun pm => all_pitches pm = []) pms ->
  (forall pm, all_pitches pm = [] -> _get_min_max_pitch pm = Err EmptyTrackError)
  /\ is_ok (generate_midi_files_report pms) = false
  /\ is_ok (piano_roll_filter np_mean np_std pms) = false
  /\ is_ok (run np_mean np_std join ctor tree) = false
  /\ main np_mean np_std join ctor tree = (1, None)
  /\ (forall pre pm post tempo,
         pms = pre ++ pm :: post ->
         Forall reportable pre ->
         estimate_tempo pm = Ok tempo ->
         all_pitches pm = [] ->
         generate_midi_files_report pms = Err EmptyTrackError
         /\ piano_roll_filter np_mean np_std pms = Err EmptyTrackError
         /\ run np_mean np_std join ctor tree = Err EmptyTrackError).
Proof.
  intros Hload Hex.
  pose proof (loaded_have_key_signature join ctor tree pms Hload) as Hk.
  destruct (piano_roll_filter_no_notes np_mean np_std pms Hex) as [Hrep Hfilter].
  assert (Hrun : run np_mean np_std join ctor tree = piano_roll_filter np_mean np_std pms).
  { unfold run. rewrite Hload. reflexivity. }
  split; [exact _get_min_max_pitch_no_notes|].
  split; [exact Hrep|].
  split; [exact Hfilter|].
  split; [rewrite Hrun; exact Hfilter|].
  split.
  { unfold main. rewrite Hrun.
    destruct (piano_roll_filter np_mean np_std pms); [discriminate | reflexivity]. }
  intros pre pm post tempo Heq Hpre Htempo Hn.
  rewrite Hrun. subst pms.
  assert (Hkpm : key_signature_changes pm <> []).
  { rewrite Forall_forall in Hk. apply Hk. apply in_or_app. right. left. reflexivity. }
  destruct (piano_roll_filter_reaches_empty_track np_mean np_std pre post pm tempo
              Hpre Htempo Hkpm Hn) as [H1 H2].
  repeat split; assumption.
Qed.

(** A directory holding one file with notes and one without. *)
Lemma empty_track_aborts_run_witness :
  _file_filter posix_join
    (parser_of [("corpus/a.mid"%string, two_tempo_track);
                ("corpus/b.mid"%string, silent_track)])
    (corpus_tree ["a.mid"%string; "b.mid"%string])
  = Ok [two_tempo_track; silent_track]
  /\ _get_min_max_pitch silent_track = Err EmptyTrackError
  /\ main naive_mean naive_std posix_join
       (parser_of [("corpus/a.mid"%string, two_tempo_track);
                   ("corpus/b.mid"%string, silent_track)])
       (corpus_tree ["a.mid"%string; "b.mid"%string])
     = (1, None).
Proof.
  split; [reflexivity|].
  destruct (empty_track_aborts_run naive_mean naive_std posix_join
              (parser_of [("corpus/a.mid"%string, two_tempo_track);
                          ("corpus/b.mid"%string, silent_track)])
              (corpus_tree ["a.mid"%string; "b.mid"%string])
              [two_tempo_track; silent_track])
    as (Hmin & _ & _ & _ & Hmain & _).
  - reflexivity.
  - apply Exists_cons_tl. apply Exists_cons_hd. reflexivity.
  - split; [apply Hmin; reflexivity | exact Hmain].
Defined.

(** ** Arrays *)

Lemma incl_firstn {A : Type} (n : nat) (l : list A) : incl (firstn n l) l.
Proof.
  revert l. induction n as [| n IH]; intros [| x l]; simpl;
    try (intros y Hy; contradiction).
  intros y [-> | Hy]; [left; reflexivity | right; apply IH; exact Hy].
Qed.

Lemma incl_skipn {A : Type} (n : nat) (l : list A) : incl (skipn n l) l.
Proof.
  revert l. induction n as [| n IH]; intros [| x l]; simpl;
    try (intros y Hy; exact Hy).
  intros y Hy. right. apply IH. exact Hy.
Qed.

Lemma Forall_py_slice {A : Type} (P : A -> Prop) (l : list A) (start stop : Z) :
  Forall P l -> Forall P (py_slice l start stop).
Proof.
  intros H. apply Forall_forall. intros x Hx.
  rewrite Forall_forall in H. apply H.
  unfold py_slice in Hx. apply incl_firstn, incl_skipn in Hx. exact Hx.
Qed.

(** Within the 128 rows, [l[lo : hi + 1]] is rows [lo] to [hi], both included. *)
Lemma py_slice_pitch_rows {A : Type} (l : list A) (lo hi : Z) :
  length l = 128%nat -> 0 <= lo -> lo <= hi -> hi <= 127 ->
  py_slice l lo (hi + 1) = firstn (Z.to_nat (hi - lo + 1)) (skipn (Z.to_nat lo) l)
  /\ length (py_slice l lo (hi + 1)) = Z.to_nat (hi - lo + 1).
Proof.
  intros Hlen H0 Hle H127.
  assert (Heq : py_slice l lo (hi + 1)
                = firstn (Z.to_nat (hi - lo + 1)) (skipn (Z.to_nat lo) l)).
  { unfold py_slice, slice_index. rewrite Hlen.
    destruct (lo <? 0) eqn:E1; [apply Z.ltb_lt in E1; lia|].
    destruct (hi + 1 <? 0) eqn:E2; [apply Z.ltb_lt in E2; lia|].
    change (Z.of_nat 128) with 128.
    rewrite (Z.min_l lo 128), (Z.min_l (hi + 1) 128) by lia.
    replace (hi + 1 - lo) with (hi - lo + 1) by lia. reflexivity. }
  split; [exact Heq|].
  rewrite Heq, length_firstn, length_skipn, Hlen. lia.
Qed.

Lemma getitem_slice_well_shaped (a : ndarray) (start stop : Z) :
  well_shaped a -> well_shaped (getitem_slice a start stop).
Proof.
  intros [_ Hrows]. split; simpl; [reflexivity|].
  apply Forall_py_slice. exact Hrows.
Qed.

Lemma row_length (a : ndarray) (i : nat) :
  well_shaped a -> (i < nrows a)%nat -> length (nth i (cells a) []) = ncols a.
Proof.
  intros [Hlen Hrows] Hi. rewrite Forall_forall in Hrows.
  apply Hrows. apply nth_In. rewrite Hlen. exact Hi.
Qed.

Lemma seq_from (s : nat) : forall c, seq c s = map (fun j => (c + j)%nat) (seq 0 s).
Proof.
  induction s as [| s IH]; intros c; simpl; [reflexivity|].
  f_equal; [lia|].
  rewrite <- (seq_shift s 0), map_map, (IH (S c)).
  apply map_ext. intros j. lia.
Qed.

Lemma rows_as_nth {A : Type} (d : A) (l : list A) :
  l = map (fun i => nth i l d) (seq 0 (length l)).
Proof.
  induction l as [| x r IH]; [reflexivity|].
  cbn [length seq map nth]. f_equal.
  rewrite <- seq_shift. rewrite map_map. exact IH.
Qed.

Lemma hstack_cells_length (n : nat) (arrs : list ndarray) :
  length (hstack_cells n arrs) = n.
Proof. unfold hstack_cells. rewrite length_map, length_seq. reflexivity. Qed.

Lemma hstack_row_length (n : nat) (arrs : list ndarray) :
  Forall (fun a => well_shaped a /\ nrows a = n) arrs ->
  Forall (fun r => length r = list_sum (map ncols arrs)) (hstack_cells n arrs).
Proof.
  intros Hall. apply Forall_forall. intros r Hr.
  unfold hstack_cells in Hr. apply in_map_iff in Hr.
  destruct Hr as (i & <- & Hi). apply in_seq in Hi.
  induction Hall as [| a rest [Hwf Hn] _ IH]; simpl; [reflexivity|].
  rewrite length_app, IH. f_equal.
  apply row_length; [exact Hwf | lia].
Qed.

Lemma np_hstack_ok (n : nat) (arrs : list ndarray) :
  arrs <> [] ->
  Forall (fun a => nrows a = n) arrs ->
  np_hstack arrs
  = Ok {| nrows := n; ncols := list_sum (map ncols arrs); cells := hstack_cells n arrs |}.
Proof.
  destruct arrs as [| a rest]; [contradiction|]. intros _ Hall.
  inversion Hall as [| ? ? Ha Hrest]; subst. unfold np_hstack.
  assert (Hb : forallb (fun b => Nat.eqb (nrows b) (nrows a)) rest = true).
  { apply forallb_forall. intros b Hb. rewrite Forall_forall in Hrest.
    apply Nat.eqb_eq. apply Hrest. exact Hb. }
  rewrite Hb. reflexivity.
Qed.

Lemma transpose_well_shaped (a : ndarray) :
  length (cells a) = nrows a -> well_shaped (transpose a).
Proof.
  intros Hlen. split; simpl.
  - unfold transpose_cells. rewrite length_map, length_seq. reflexivity.
  - apply Forall_forall. intros r Hr. unfold transpose_cells in Hr.
    apply in_map_iff in Hr. destruct Hr as (j & <- & _).
    rewrite length_map. exact Hlen.
Qed.

(** The transpose of arrays laid side by side is their transposes laid one
    under the other. *)
Lemma transpose_hstack (n : nat) (arrs : list ndarray) :
  Forall (fun a => well_shaped a /\ nrows a = n) arrs ->
  transpose_cells (list_sum (map ncols arrs)) (hstack_cells n arrs)
  = concat (map (fun a => transpose_cells (ncols a) (cells a)) arrs).
Proof.
  induction 1 as [| a rest [Hwf Hn] Hrest IH]; [reflexivity|].
  cbn [map list_sum fold_right concat].
  rewrite <- IH. unfold transpose_cells at 1.
  rewrite seq_app, map_app. f_equal.
  - unfold transpose_cells. apply map_ext_in. intros j Hj. apply in_seq in Hj.
    unfold hstack_cells. rewrite map_map.
    rewrite (rows_as_nth [] (cells a)) at 1.
    rewrite map_map. destruct Hwf as [Hlen Hrows]. rewrite Hlen, Hn.
    apply map_ext_in. intros i Hi. apply in_seq in Hi.
    cbn [map concat]. apply app_nth1.
    rewrite row_length; [lia | split; assumption | lia].
  - rewrite (seq_from _ (0 + ncols a)). unfold transpose_cells.
    rewrite map_map. apply map_ext_in. intros j Hj.
    unfold hstack_cells. rewrite !map_map.
    apply map_ext_in. intros i Hi. apply in_seq in Hi.
    cbn [map concat].
    rewrite <- (row_length a i Hwf) by lia.
    apply app_nth2_plus.
Qed.

(** ** The Range Filter and the Matrix Assembler *)

(** On a non-empty corpus of files the report can be made for, the result
    of [piano_roll_filter] is the transposed stack of the admitted files'
    slices. *)
Lemma piano_roll_filter_spec (np_mean np_std : list float -> float)
    (pms : list PrettyMIDI) :
  pms <> [] ->
  Forall reportable pms ->
  piano_roll_filter np_mean np_std pms
  = (result <- np_hstack (map (sliced_roll (low_pitch_bound pms) (high_pitch_bound pms))
                              (admitted np_mean np_std pms)) ;;
     Ok (transpose result)).
Proof.
  intros Hne Hrep. unfold piano_roll_filter.
  rewrite (generate_midi_files_report_spec pms Hrep). cbn [bind].
  destruct (aggregation_report_spec np_mean np_std pms Hne) as [key ->]. cbn [bind].
  rewrite (filter_loop_spec _ _ _ _ pms); [reflexivity|].
  eapply Forall_impl; [|exact Hrep]. intros pm (Ht & _ & Hn). split; assumption.
Qed.

Lemma reportable_intro (pms : list PrettyMIDI) :
  Forall (fun pm => all_pitches pm <> []) pms ->
  Forall (fun pm => key_signature_changes pm <> []) pms ->
  Forall tempo_estimable pms ->
  Forall reportable pms.
Proof.
  intros Hn Hk Ht. rewrite Forall_forall in *.
  intros pm Hin. repeat split; auto.
Qed.

Lemma sum_Z_bounds (lo hi : Z) (l : list Z) :
  Forall (fun p => lo <= p <= hi) l ->
  lo * Z.of_nat (length l) <= sum_Z l <= hi * Z.of_nat (length l).
Proof.
  induction 1 as [| p r Hp _ IH]; [simpl; lia|].
  change (length (p :: r)) with (S (length r)). rewrite Nat2Z.inj_succ. simpl. lia.
Qed.

Lemma truncated_mean_bounds (lo hi : Z) (l : list Z) :
  l <> [] -> Forall (fun p => lo <= p <= hi) l -> lo <= truncated_mean l <= hi.
Proof.
  intros Hne Hall. unfold truncated_mean.
  pose proof (sum_Z_bounds lo hi l Hall) as [Hlo Hhi].
  assert (Hpos : 0 < Z.of_nat (length l)) by (destruct l; [contradiction | simpl; lia]).
  split.
  - apply Z.quot_le_lower_bound; [exact Hpos | lia].
  - apply Z.quot_le_upper_bound; [exact Hpos | lia].
Qed.

Lemma pitch_summaries_in_range (lo hi : Z) (pm : PrettyMIDI) :
  all_pitches pm <> [] ->
  Forall (fun p => lo <= p <= hi) (all_pitches pm) ->
  lo <= lowest_pitch pm <= hi /\ lo <= highest_pitch pm <= hi.
Proof.
  unfold lowest_pitch, highest_pitch.
  destruct (all_pitches pm) as [| x r]; [contradiction|]. intros _ Hall.
  inversion Hall as [| ? ? Hx Hr]; subst.
  pose proof (fold_min_le r x). pose proof (fold_max_ge r x).
  assert (lo <= fold_left Z.min r x).
  { apply fold_min_lower_bound; [lia|].
    eapply Forall_impl; [|exact Hr]. simpl. intros; lia. }
  assert (fold_left Z.max r x <= hi).
  { apply fold_max_upper_bound; [lia|].
    eapply Forall_impl; [|exact Hr]. simpl. intros; lia. }
  lia.
Qed.

(** With MIDI pitches, both bounds are rows of the piano roll. *)
Lemma pitch_bounds_in_midi_range (pms : list PrettyMIDI) :
  pms <> [] ->
  Forall (fun pm => all_pitches pm <> []
                    /\ Forall (fun p => 0 <= p <= 127) (all_pitches pm)) pms ->
  0 <= low_pitch_bound pms /\ low_pitch_bound pms <= high_pitch_bound pms
  /\ high_pitch_bound pms <= 127.
Proof.
  intros Hne Hall.
  assert (Hmap : forall f : PrettyMIDI -> Z, map f pms <> []).
  { intros f. destruct pms; [contradiction | discriminate]. }
  assert (Hlow : Forall (fun p => 0 <= p <= 127) (map lowest_pitch pms)).
  { apply Forall_map. eapply Forall_impl; [|exact Hall].
    intros pm [Hn Hr]. apply (pitch_summaries_in_range 0 127 pm Hn Hr). }
  assert (Hhigh : Forall (fun p => 0 <= p <= 127) (map highest_pitch pms)).
  { apply Forall_map. eapply Forall_impl; [|exact Hall].
    intros pm [Hn Hr]. apply (pitch_summaries_in_range 0 127 pm Hn Hr). }
  pose proof (truncated_mean_bounds 0 127 _ (Hmap lowest_pitch) Hlow).
  pose proof (truncated_mean_bounds 0 127 _ (Hmap highest_pitch) Hhigh).
  pose proof (low_le_high_bound pms Hne).
  unfold low_pitch_bound, high_pitch_bound in *. lia.
Qed.

Lemma sliced_roll_shape (lo hi : Z) (pm : PrettyMIDI) :
  well_shaped (get_piano_roll pm) -> nrows (get_piano_roll pm) = 128%nat ->
  0 <= lo -> lo <= hi -> hi <= 127 ->
  well_shaped (sliced_roll lo hi pm)
  /\ shape (sliced_roll lo hi pm) = (Z.to_nat (hi - lo + 1), ncols (get_piano_roll pm))
  /\ cells (sliced_roll lo hi pm)
     = firstn (Z.to_nat (hi - lo + 1)) (skipn (Z.to_nat lo) (cells (get_piano_roll pm))).
Proof.
  intros Hwf H128 H0 Hle H127.
  assert (Hlen : length (cells (get_piano_roll pm)) = 128%nat).
  { destruct Hwf as [Hlen _]. rewrite Hlen. exact H128. }
  destruct (py_slice_pitch_rows (cells (get_piano_roll pm)) lo hi Hlen H0 Hle H127)
    as [Hrows Hcount].
  split; [apply getitem_slice_well_shaped; exact Hwf|].
  split.
  - unfold shape, sliced_roll, getitem_slice. cbn [nrows ncols]. rewrite Hcount. reflexivity.
  - exact Hrows.
Qed.

(** C6, as the code has it: when the corpus is not empty, every file has
    MIDI pitches, a note, a key signature and a tempo the library can
    estimate, and the Range Filter admits no file, the report, the
    aggregation and the filtering loop succeed and the run fails at
    [np.hstack] with the empty-corpus error. *)
Theorem no_admitted_track_fails_at_hstack
    (np_mean np_std : list float -> float) (pms : list PrettyMIDI) :
  pms <> [] ->
  Forall (fun pm => all_pitches pm <> []) pms ->
  Forall (fun pm => key_signature_changes pm <> []) pms ->
  Forall tempo_estimable pms ->
  midi_corpus pms ->
  admitted np_mean np_std pms = [] ->
  (exists report temp_mean temp_std key low high,
      generate_midi_files_report pms = Ok report
      /\ aggregation_report np_mean np_std report = Ok (temp_mean, temp_std, key, low, high)
      /\ filter_loop temp_mean temp_std low high pms [] = Ok [])
  /\ np_hstack [] = Err EmptyCorpusError
  /\ piano_roll_filter np_mean np_std pms = Err EmptyCorpusError.
Proof.
  intros Hne Hn Hk Ht _ Hnone.
  pose proof (reportable_intro pms Hn Hk Ht) as Hrep.
  split.
  { destruct (aggregation_report_spec np_mean np_std pms Hne) as [key Hagg].
    eexists. exists (np_mean (tempo_estimates pms)), (np_std (tempo_estimates pms)).
    exists key, (low_pitch_bound pms), (high_pitch_bound pms).
    split; [apply generate_midi_files_report_spec; assumption|].
    split; [exact Hagg|].
    rewrite (filter_loop_spec _ _ _ _ pms).
    - fold (admitted np_mean np_std pms). rewrite Hnone. reflexivity.
    - rewrite Forall_forall in *. intros pm Hin. split; auto. }
  split; [reflexivity|].
  rewrite (piano_roll_filter_spec np_mean np_std pms Hne Hrep), Hnone. reflexivity.
Qed.

(** A single file is never admitted, its tempo being the mean. *)
Lemma no_admitted_track_fails_at_hstack_witness :
  admitted naive_mean naive_std single_track_corpus = []
  /\ piano_roll_filter naive_mean naive_std single_track_corpus = Err EmptyCorpusError.
Proof.
  split; [vm_compute; reflexivity|].
  apply (no_admitted_track_fails_at_hstack naive_mean naive_std single_track_corpus).
  - discriminate.
  - repeat constructor; discriminate.
  - repeat constructor; discriminate.
  - repeat constructor.
  - split; [repeat constructor; cbn; lia | reflexivity].
  - vm_compute. reflexivity.
Defined.

(** C6, as stated, fails on a directory whose only file has two key
    signatures: the loader keeps nothing, no file is admitted, and the run
    stops in the aggregation, at the most frequent key, before any matrix is
    assembled. *)
Lemma empty_corpus_fails_before_assembly :
  _file_filter posix_join (parser_of [("corpus/a.mid"%string, two_key_track)])
    (corpus_tree ["a.mid"%string]) = Ok []
  /\ admitted naive_mean naive_std [] = []
  /\ generate_midi_files_report [] = Ok (mk_FileReport [] [] [] [])
  /\ get_most_freq_value [] = Err IndexError_list_index
  /\ aggregation_report naive_mean naive_std (mk_FileReport [] [] [] [])
     = Err IndexError_list_index
  /\ piano_roll_filter naive_mean naive_std [] = Err IndexError_list_index
  /\ run naive_mean naive_std posix_join
       (parser_of [("corpus/a.mid"%string, two_key_track)])
       (corpus_tree ["a.mid"%string])
     = Err IndexError_list_index
  /\ run naive_mean naive_std posix_join
       (parser_of [("corpus/a.mid"%string, two_key_track)])
       (corpus_tree ["a.mid"%string])
     <> Err EmptyCorpusError.
Proof.
  repeat split; try reflexivity.
  vm_compute. discriminate.
Qed.

Lemma nth_concat_map {A B : Type} (f : A -> list B) (pre post : list A) (x : A)
    (t : nat) (d : B) :
  (t < length (f x))%nat ->
  nth (length (concat (map f pre)) + t) (concat (map f (pre ++ x :: post))) d
  = nth t (f x) d.
Proof.
  intros Ht. rewrite map_app, concat_app, app_nth2_plus.
  cbn [map concat]. apply app_nth1. exact Ht.
Qed.

Lemma nth_map_in_range {A B : Type} (g : A -> B) (l : list A) (i : nat) (d : B) (d' : A) :
  (i < length l)%nat -> nth i (map g l) d = g (nth i l d').
Proof.
  intros Hi. rewrite (nth_indep (map g l) d (g d')) by (rewrite length_map; exact Hi).
  apply map_nth.
Qed.

Lemma nth_transpose_cells (c : nat) (rows : list (list float)) (t : nat) :
  (t < c)%nat ->
  nth t (transpose_cells c rows) [] = map (fun r => nth t r 0%float) rows.
Proof.
  intros Ht. unfold transpose_cells.
  rewrite (nth_map_in_range _ (seq 0 c) t [] 0%nat) by (rewrite length_seq; exact Ht).
  rewrite seq_nth by exact Ht. reflexivity.
Qed.

(** C1: when the files have MIDI pitches, tempos the library can estimate,
    key signatures and 128-row piano rolls, and at least one file is
    admitted, [piano_roll_filter] returns the transpose of the admitted
    files' slices stacked side by side in corpus order; each slice is rows
    [low] to [high] of its file's piano roll; the result has one row per time
    step of every admitted file and [high - low + 1] columns; and its cell at
    a time step of an admitted file, counted after the time steps of the
    admitted files before it, and a pitch channel [p] is that file's
    piano-roll cell at pitch [low + p] and that time step.  In particular
    slices of 50 and 30 columns give 80 rows. *)
Theorem assembled_matrix_shape
    (np_mean np_std : list float -> float) (pms : list PrettyMIDI) :
  Forall (fun pm => all_pitches pm <> []) pms ->
  Forall (fun pm => key_signature_changes pm <> []) pms ->
  Forall tempo_estimable pms ->
  midi_corpus pms ->
  Forall (fun pm => well_shaped (get_piano_roll pm)
                    /\ nrows (get_piano_roll pm) = 128%nat) pms ->
  admitted np_mean np_std pms <> [] ->
  (exists stacked result,
      np_hstack (map (sliced_roll (low_pitch_bound pms) (high_pitch_bound pms))
                     (admitted np_mean np_std pms)) = Ok stacked
      /\ piano_roll_filter np_mean np_std pms = Ok result
      /\ result = transpose stacked
      /\ Forall (fun pm =>
                   cells (sliced_roll (low_pitch_bound pms) (high_pitch_bound pms) pm)
                   = firstn (Z.to_nat (high_pitch_bound pms - low_pitch_bound pms + 1))
                       (skipn (Z.to_nat (low_pitch_bound pms)) (cells (get_piano_roll pm)))
                   /\ shape (sliced_roll (low_pitch_bound pms) (high_pitch_bound pms) pm)
                      = (Z.to_nat (high_pitch_bound pms - low_pitch_bound pms + 1),
                         ncols (get_piano_roll pm)))
           (admitted np_mean np_std pms)
      /\ cells result
         = concat (map (fun pm => cells (transpose
                          (sliced_roll (low_pitch_bound pms) (high_pitch_bound pms) pm)))
                     (admitted np_mean np_std pms))
      /\ well_shaped result
      /\ shape result
         = (list_sum (map (fun pm => ncols (get_piano_roll pm)) (admitted np_mean np_std pms)),
            Z.to_nat (high_pitch_bound pms - low_pitch_bound pms + 1))
      /\ (forall (pre post : list PrettyMIDI) (pm : PrettyMIDI) (t p : nat),
             admitted np_mean np_std pms = pre ++ pm :: post ->
             (t < ncols (get_piano_roll pm))%nat ->
             (p < Z.to_nat (high_pitch_bound pms - low_pitch_bound pms + 1))%nat ->
             nth p (nth (list_sum (map (fun a => ncols (get_piano_roll a)) pre) + t)
                        (cells result) []) 0%float
             = nth t (nth (Z.to_nat (low_pitch_bound pms) + p)
                          (cells (get_piano_roll pm)) []) 0%float))
  /\ (forall (a b : ndarray) (pitch_channels : nat),
         shape a = (pitch_channels, 50%nat) -> shape b = (pitch_channels, 30%nat) ->
         exists stacked, np_hstack [a; b] = Ok stacked
                         /\ shape (transpose stacked) = (80%nat, pitch_channels)).
Proof.
  intros Hn Hk Ht Hmidi Hroll Hadm.
  split.
  2:{ intros a b pc Ha Hb. unfold shape in Ha, Hb.
      injection Ha as Har Hac. injection Hb as Hbr Hbc.
      eexists. split.
      - apply (np_hstack_ok pc); [discriminate|].
        constructor; [exact Har|]. constructor; [exact Hbr|]. constructor.
      - unfold shape, transpose. cbn [nrows ncols map list_sum fold_right].
        rewrite Hac, Hbc. reflexivity. }
  assert (Hne : pms <> []).
  { intros ->. apply Hadm. reflexivity. }
  pose proof (reportable_intro pms Hn Hk Ht) as Hrep.
  assert (Hpitch : Forall (fun pm => all_pitches pm <> []
                     /\ Forall (fun p => 0 <= p <= 127) (all_pitches pm)) pms).
  { destruct Hmidi as [Hm _]. rewrite Forall_forall in *.
    intros pm Hin. split; [apply Hn | apply Hm]; exact Hin. }
  destruct (pitch_bounds_in_midi_range pms Hne Hpitch) as (H0 & Hle & H127).
  set (low := low_pitch_bound pms) in *.
  set (high := high_pitch_bound pms) in *.
  set (adm := admitted np_mean np_std pms) in *.
  assert (Hslices : Forall (fun pm =>
             well_shaped (sliced_roll low high pm)
             /\ shape (sliced_roll low high pm)
                = (Z.to_nat (high - low + 1), ncols (get_piano_roll pm))
             /\ cells (sliced_roll low high pm)
                = firstn (Z.to_nat (high - low + 1))
                    (skipn (Z.to_nat low) (cells (get_piano_roll pm)))) adm).
  { apply Forall_forall. intros pm Hin.
    unfold adm, admitted in Hin. apply filter_In in Hin. destruct Hin as [Hin _].
    rewrite Forall_forall in Hroll. destruct (Hroll pm Hin) as [Hwf H128].
    apply sliced_roll_shape; assumption. }
  assert (Harrs : Forall (fun a => well_shaped a /\ nrows a = Z.to_nat (high - low + 1))
                    (map (sliced_roll low high) adm)).
  { apply Forall_map. eapply Forall_impl; [|exact Hslices].
    intros pm (Hwf & Hshape & _). split; [exact Hwf|].
    apply (f_equal fst) in Hshape. exact Hshape. }
  assert (Hstack : np_hstack (map (sliced_roll low high) adm)
                   = Ok {| nrows := Z.to_nat (high - low + 1);
                           ncols := list_sum (map ncols (map (sliced_roll low high) adm));
                           cells := hstack_cells (Z.to_nat (high - low + 1))
                                      (map (sliced_roll low high) adm) |}).
  { apply np_hstack_ok.
    - destruct adm; [contradiction | discriminate].
    - eapply Forall_impl; [|exact Harrs]. intros a [_ H]. exact H. }
  assert (Hcells : transpose_cells (list_sum (map ncols (map (sliced_roll low high) adm)))
                     (hstack_cells (Z.to_nat (high - low + 1))
                        (map (sliced_roll low high) adm))
                   = concat (map (fun pm => cells (transpose (sliced_roll low high pm))) adm)).
  { rewrite (transpose_hstack _ _ Harrs), map_map. reflexivity. }
  eexists. eexists.
  split; [exact Hstack|].
  split.
  { rewrite (piano_roll_filter_spec np_mean np_std pms Hne Hrep).
    fold low high adm. rewrite Hstack. reflexivity. }
  split; [reflexivity|].
  split.
  { eapply Forall_impl; [|exact Hslices]. intros pm (_ & Hshape & Hc).
    split; assumption. }
  split; [exact Hcells|].
  split.
  { apply transpose_well_shaped. cbn [cells nrows]. apply hstack_cells_length. }
  split.
  { unfold shape, transpose. cbn [nrows ncols]. rewrite map_map. reflexivity. }
  intros pre post pm t p Heq Htime Hchan.
  unfold transpose at 1. cbn [cells ncols]. rewrite Hcells, Heq.
  set (f := fun a => cells (transpose (sliced_roll low high a))).
  assert (Hoff : list_sum (map (fun a => ncols (get_piano_roll a)) pre)
                 = length (concat (map f pre))).
  { rewrite length_concat, map_map. f_equal. apply map_ext. intros a.
    unfold f, transpose, transpose_cells. cbn [cells].
    rewrite length_map, length_seq. reflexivity. }
  assert (Hin : In pm adm).
  { rewrite Heq. apply in_or_app. right. left. reflexivity. }
  rewrite Forall_forall in Hslices.
  destruct (Hslices pm Hin) as (_ & Hshape & Hrows).
  assert (Hlen : length (cells (sliced_roll low high pm)) = Z.to_nat (high - low + 1)).
  { destruct (Hslices pm Hin) as ([Hl _] & _ & _). rewrite Hl.
    apply (f_equal fst) in Hshape. exact Hshape. }
  rewrite Hoff, nth_concat_map.
  - unfold f, transpose. cbn [cells].
    change (ncols (sliced_roll low high pm)) with (ncols (get_piano_roll pm)).
    rewrite (nth_transpose_cells _ _ t Htime).
    rewrite (nth_map_in_range _ _ p 0%float []) by (rewrite Hlen; exact Hchan).
    rewrite Hrows, nth_firstn.
    destruct (p <? Z.to_nat (high - low + 1))%nat eqn:E;
      [|apply Nat.ltb_ge in E; lia].
    rewrite nth_skipn. reflexivity.
  - unfold f, transpose, transpose_cells. cbn [cells].
    rewrite length_map, length_seq. exact Htime.
Qed.

(** The example corpus: the files of 50 and 30 time steps are admitted, the
    bounds are 60 and 64, the result has 80 rows and 5 columns, and its cell
    at time step 50 and pitch channel 2 is the second admitted file's cell at
    pitch 62 and time step 0. *)
Lemma assembled_matrix_shape_witness :
  admitted naive_mean naive_std four_track_corpus
  = [simple_track [60; 64] 119 50; simple_track [60; 64] 121 30]
  /\ low_pitch_bound four_track_corpus = 60
  /\ high_pitch_bound four_track_corpus = 64
  /\ exists result,
       piano_roll_filter naive_mean naive_std four_track_corpus = Ok result
       /\ shape result = (80%nat, 5%nat)
       /\ nth 2 (nth 50 (cells result) []) 0%float = 62000%float.
Proof.
  assert (Hadm : admitted naive_mean naive_std four_track_corpus
                 = [simple_track [60; 64] 119 50] ++ simple_track [60; 64] 121 30 :: []).
  { vm_compute. reflexivity. }
  split; [exact Hadm|].
  split; [reflexivity|].
  split; [reflexivity|].
  destruct (assembled_matrix_shape naive_mean naive_std four_track_corpus)
    as [(stacked & result & _ & Hres & _ & _ & _ & _ & Hshape & Hcell) _].
  - repeat constructor; discriminate.
  - repeat constructor; discriminate.
  - repeat constructor.
  - split; [repeat constructor; cbn; lia | reflexivity].
  - repeat constructor.
  - vm_compute. discriminate.
  - exists result. split; [exact Hres|]. split.
    + rewrite Hshape. vm_compute. reflexivity.
    + refine (eq_trans (Hcell _ _ _ 0%nat 2%nat Hadm _ _) _).
      * vm_compute. lia.
      * vm_compute. lia.
      * vm_compute. reflexivity.
Defined.

(** ** The most frequent key *)

(** The head of the descending stable sort: the first item whose count is
    the largest. *)
Lemma sorted_desc_head (items : list (Z * nat)) :
  items <> [] ->
  exists k c pre post tail,
    items = pre ++ (k, c) :: post
    /\ Forall (fun kv => (snd kv < c)%nat) pre
    /\ Forall (fun kv => (snd kv <= c)%nat) post
    /\ sorted_desc items = (k, c) :: tail.
Proof.
  induction items as [| x r IH]; [contradiction|]. intros _.
  destruct r as [| y r'].
  - destruct x as [k c]. exists k, c, [], [], []. repeat split; constructor.
  - destruct IH as (k & c & pre & post & tail & Hr & Hpre & Hpost & Hsorted);
      [discriminate|].
    change (sorted_desc (x :: y :: r')) with (insert_desc x (sorted_desc (y :: r'))).
    rewrite Hsorted, Hr. cbn [insert_desc snd].
    destruct (snd x <? c)%nat eqn:E.
    + apply Nat.ltb_lt in E.
      exists k, c, (x :: pre), post, (insert_desc x tail).
      repeat split; try assumption. constructor; assumption.
    + apply Nat.ltb_ge in E. destruct x as [kx cx]. simpl in E.
      exists kx, cx, [], (pre ++ (k, c) :: post), ((k, c) :: tail).
      repeat split; [constructor|].
      apply Forall_app. split.
      * eapply Forall_impl; [|exact Hpre]. simpl. intros; lia.
      * constructor; [simpl; lia|].
        eapply Forall_impl; [|exact Hpost]. simpl. intros; lia.
Qed.

(** The head of the ascending stable sort: the first item whose count is the
    smallest. *)
Lemma sorted_asc_head (items : list (Z * nat)) :
  items <> [] ->
  exists k c pre post tail,
    items = pre ++ (k, c) :: post
    /\ Forall (fun kv => (c < snd kv)%nat) pre
    /\ Forall (fun kv => (c <= snd kv)%nat) post
    /\ fold_right insert_asc [] items = (k, c) :: tail.
Proof.
  induction items as [| x r IH]; [contradiction|]. intros _.
  destruct r as [| y r'].
  - destruct x as [k c]. exists k, c, [], [], []. repeat split; constructor.
  - destruct IH as (k & c & pre & post & tail & Hr & Hpre & Hpost & Hsorted);
      [discriminate|].
    change (fold_right insert_asc [] (x :: y :: r'))
      with (insert_asc x (fold_right insert_asc [] (y :: r'))).
    rewrite Hsorted, Hr. cbn [insert_asc snd].
    destruct (c <? snd x)%nat eqn:E.
    + apply Nat.ltb_lt in E.
      exists k, c, (x :: pre), post, (insert_asc x tail).
      repeat split; try assumption. constructor; assumption.
    + apply Nat.ltb_ge in E. destruct x as [kx cx]. simpl in E.
      exists kx, cx, [], (pre ++ (k, c) :: post), ((k, c) :: tail).
      repeat split; [constructor|].
      apply Forall_app. split.
      * eapply Forall_impl; [|exact Hpre]. simpl. intros; lia.
      * constructor; [simpl; lia|].
        eapply Forall_impl; [|exact Hpost]. simpl. intros; lia.
Qed.

(** X1: [get_most_freq_value] raises [IndexError] on an empty dict; on any
    other it returns the key of the first item, in the dict's order, whose
    count is the largest: earlier items have strictly smaller counts, later
    ones none larger. *)
Theorem most_frequent_key_is_first_maximum (items : list (Z * nat)) :
  (items = [] -> get_most_freq_value items = Err IndexError_list_index)
  /\ (items <> [] -> exists k, get_most_freq_value items = Ok k)
  /\ (forall k, get_most_freq_value items = Ok k ->
        exists c pre post,
          items = pre ++ (k, c) :: post
          /\ Forall (fun kv => (snd kv < c)%nat) pre
          /\ Forall (fun kv => (snd kv <= c)%nat) post).
Proof.
  split; [intros ->; reflexivity|].
  split.
  - intros Hne.
    destruct (sorted_desc_head items Hne) as (k & c & pre & post & tail & _ & _ & _ & Hs).
    exists k. unfold get_most_freq_value. rewrite Hs. reflexivity.
  - intros k Hk. destruct items as [| x r]; [discriminate|].
    destruct (sorted_desc_head (x :: r)) as (k' & c & pre & post & tail & Hd & Hpre & Hpost & Hs);
      [discriminate|].
    unfold get_most_freq_value in Hk. rewrite Hs in Hk. simpl in Hk.
    injection Hk as <-. exists c, pre, post. repeat split; assumption.
Qed.

(** X2: with [reversed=True] the general function is the default one; with
    [reversed=False] it returns the key of the first item whose count is the
    smallest; on an empty dict it raises [IndexError] either way. *)
Theorem most_frequent_key_reversed_flag (items : list (Z * nat)) :
  get_most_freq_value_reversed items true = get_most_freq_value items
  /\ (forall reversed, items = [] ->
        get_most_freq_value_reversed items reversed = Err IndexError_list_index)
  /\ (items <> [] -> exists k, get_most_freq_value_reversed items false = Ok k)
  /\ (forall k, get_most_freq_value_reversed items false = Ok k ->
        exists c pre post,
          items = pre ++ (k, c) :: post
          /\ Forall (fun kv => (c < snd kv)%nat) pre
          /\ Forall (fun kv => (c <= snd kv)%nat) post).
Proof.
  split; [reflexivity|].
  split; [intros [|] ->; reflexivity|].
  split.
  - intros Hne.
    destruct (sorted_asc_head items Hne) as (k & c & pre & post & tail & _ & _ & _ & Hs).
    exists k. unfold get_most_freq_value_reversed, py_sorted_by_count.
    rewrite Hs. reflexivity.
  - intros k Hk. destruct items as [| x r]; [discriminate|].
    destruct (sorted_asc_head (x :: r)) as (k' & c & pre & post & tail & Hd & Hpre & Hpost & Hs);
      [discriminate|].
    unfold get_most_freq_value_reversed, py_sorted_by_count in Hk.
    rewrite Hs in Hk. simpl in Hk.
    injection Hk as <-. exists c, pre, post. repeat split; assumption.
Qed.

(** ** Counting keys *)

Lemma lookup_Counter_add (k k' : Z) (c : list (Z * nat)) :
  lookup_count (Counter_add k c) k'
  = if k' =? k then S (lookup_count c k') else lookup_count c k'.
Proof.
  induction c as [| [k0 n] r IH]; simpl.
  - destruct (k' =? k); reflexivity.
  - destruct (k =? k0) eqn:E0; simpl.
    + apply Z.eqb_eq in E0. subst k0.
      destruct (k' =? k); reflexivity.
    + rewrite IH. destruct (k' =? k0) eqn:E1; [|reflexivity].
      apply Z.eqb_eq in E1. subst k0.
      rewrite Z.eqb_sym, E0. reflexivity.
Qed.

Lemma keys_Counter_add (k : Z) (c : list (Z * nat)) :
  map fst (Counter_add k c)
  = if existsb (Z.eqb k) (map fst c) then map fst c else map fst c ++ [k].
Proof.
  induction c as [| [k0 n] r IH]; simpl; [reflexivity|].
  destruct (k =? k0); simpl; [reflexivity|].
  rewrite IH. destruct (existsb (Z.eqb k) (map fst r)); reflexivity.
Qed.

Lemma existsb_eqb_In (k : Z) (l : list Z) : existsb (Z.eqb k) l = true <-> In k l.
Proof.
  rewrite existsb_exists. split.
  - intros (x & Hin & Heq). apply Z.eqb_eq in Heq. subst x. exact Hin.
  - intros Hin. exists k. split; [exact Hin | apply Z.eqb_refl].
Qed.

Lemma Counter_fold_lookup (keys : list Z) :
  forall c k,
    lookup_count (fold_left (fun c k => Counter_add k c) keys c) k
    = (lookup_count c k + count_occ Z.eq_dec keys k)%nat.
Proof.
  induction keys as [| x r IH]; intros c k; simpl; [lia|].
  rewrite IH, lookup_Counter_add.
  destruct (Z.eq_dec x k) as [-> | Hne].
  - rewrite Z.eqb_refl. lia.
  - destruct (k =? x) eqn:E; [apply Z.eqb_eq in E; congruence | lia].
Qed.

Lemma Counter_fold_keys (keys : list Z) :
  forall c,
    map fst (fold_left (fun c k => Counter_add k c) keys c)
    = fold_left (fun acc k => if existsb (Z.eqb k) acc then acc else acc ++ [k])
        keys (map fst c).
Proof.
  induction keys as [| x r IH]; intros c; simpl; [reflexivity|].
  rewrite IH, keys_Counter_add. reflexivity.
Qed.

Lemma first_occurrences_fold (keys : list Z) :
  forall acc,
    NoDup acc ->
    let out := fold_left (fun acc k => if existsb (Z.eqb k) acc then acc else acc ++ [k])
                 keys acc in
    NoDup out /\ (forall k, In k out <-> In k acc \/ In k keys).
Proof.
  induction keys as [| x r IH]; intros acc Hnd; simpl.
  - split; [exact Hnd | tauto].
  - destruct (existsb (Z.eqb x) acc) eqn:E.
    + apply existsb_eqb_In in E.
      destruct (IH acc Hnd) as [Hnd' Hin]. split; [exact Hnd'|].
      intros k. rewrite Hin. intuition (subst; auto).
    + assert (Hx : ~ In x acc).
      { intros Hin. apply existsb_eqb_In in Hin. congruence. }
      assert (Hnd2 : NoDup (acc ++ [x])).
      { apply NoDup_app; [exact Hnd | repeat constructor; simpl; tauto |].
        intros y Hy [<- | []]. exact (Hx Hy). }
      destruct (IH (acc ++ [x]) Hnd2) as [Hnd' Hin]. split; [exact Hnd'|].
      intros k. rewrite Hin, in_app_iff. simpl. tauto.
Qed.

Lemma Counter_keys (keys : list Z) :
  map fst (Counter keys) = first_occurrences keys
  /\ NoDup (map fst (Counter keys))
  /\ (forall k, In k (map fst (Counter keys)) <-> In k keys).
Proof.
  unfold Counter, first_occurrences.
  rewrite Counter_fold_keys. simpl.
  destruct (first_occurrences_fold keys [] (NoDup_nil Z)) as [Hnd Hin].
  split; [reflexivity|]. split; [exact Hnd|].
  intros k. rewrite Hin. simpl. tauto.
Qed.

Lemma lookup_count_In (c : list (Z * nat)) (k : Z) (n : nat) :
  NoDup (map fst c) -> In (k, n) c -> lookup_count c k = n.
Proof.
  induction c as [| [k0 n0] r IH]; simpl; [contradiction|].
  intros Hnd [Heq | Hin].
  - injection Heq as -> ->. rewrite Z.eqb_refl. reflexivity.
  - inversion Hnd as [| ? ? Hnotin Hnd']; subst.
    destruct (k =? k0) eqn:E.
    + apply Z.eqb_eq in E. subst k0. exfalso. apply Hnotin.
      apply (in_map fst) in Hin. exact Hin.
    + apply IH; assumption.
Qed.

Lemma Counter_entry (keys : list Z) (k : Z) (n : nat) :
  In (k, n) (Counter keys) -> n = count_occ Z.eq_dec keys k /\ In k keys.
Proof.
  intros Hin. destruct (Counter_keys keys) as (_ & Hnd & Hkeys).
  split.
  - rewrite <- (lookup_count_In _ _ _ Hnd Hin).
    unfold Counter. rewrite Counter_fold_lookup. reflexivity.
  - apply Hkeys. apply (in_map fst) in Hin. exact Hin.
Qed.

(** The key chosen from the counts of a list is one of its most frequent
    keys, the one that occurs first. *)
Lemma Counter_most_frequent (keys : list Z) (k : Z) :
  get_most_freq_value (Counter keys) = Ok k ->
  In k keys
  /\ (forall k', (count_occ Z.eq_dec keys k' <= count_occ Z.eq_dec keys k)%nat)
  /\ exists pre post,
       first_occurrences keys = pre ++ k :: post
       /\ Forall (fun k' => (count_occ Z.eq_dec keys k' < count_occ Z.eq_dec keys k)%nat) pre.
Proof.
  intros Hk.
  destruct (Counter (keys)) as [| x r] eqn:HC; [discriminate|].
  destruct (sorted_desc_head (x :: r)) as (k0 & c & pre & post & tail & Hd & Hpre & Hpost & Hs);
    [discriminate|].
  unfold get_most_freq_value in Hk. rewrite Hs in Hk. simpl in Hk. injection Hk as ->.
  rewrite <- HC in Hd. clear HC Hs x r tail.
  assert (Hentry : forall k' n, In (k', n) (Counter keys)
                                -> n = count_occ Z.eq_dec keys k' /\ In k' keys)
    by (intros; apply Counter_entry; assumption).
  assert (Hkc : In (k, c) (Counter keys)).
  { rewrite Hd. apply in_or_app. right. left. reflexivity. }
  destruct (Hentry k c Hkc) as [Hc Hin]. subst c.
  split; [exact Hin|].
  split.
  - intros k'. destruct (in_dec Z.eq_dec k' keys) as [Hin' | Hnot].
    + destruct (Counter_keys keys) as (_ & _ & Hkeys).
      apply Hkeys in Hin'. apply in_map_iff in Hin'.
      destruct Hin' as ([k'' n] & Hfst & Hin'). simpl in Hfst. subst k''.
      destruct (Hentry k' n Hin') as [-> _].
      rewrite Hd in Hin'. apply in_app_or in Hin'.
      rewrite Forall_forall in Hpre, Hpost.
      destruct Hin' as [Hp | [Heq | Hp]].
      * apply Hpre in Hp. simpl in Hp. lia.
      * injection Heq as <- _. lia.
      * apply Hpost in Hp. simpl in Hp. exact Hp.
    + rewrite (proj1 (count_occ_not_In Z.eq_dec keys k') Hnot). lia.
  - exists (map fst pre), (map fst post).
    destruct (Counter_keys keys) as (<- & _ & _).
    split; [rewrite Hd, map_app; reflexivity|].
    apply Forall_forall. intros k' Hk'.
    apply in_map_iff in Hk'. destruct Hk' as ([k'' n] & Hfst & Hp). simpl in Hfst. subst k''.
    assert (Hin' : In (k', n) (Counter keys)).
    { rewrite Hd. apply in_or_app. left. exact Hp. }
    destruct (Hentry k' n Hin') as [-> _].
    rewrite Forall_forall in Hpre. apply Hpre in Hp. exact Hp.
Qed.

(** ** The outcome of the report *)

Lemma report_loop_outcome (pms : list PrettyMIDI) :
  forall ts ks mx mn,
    report_loop pms ts ks mx mn
    = match first_report_error pms with
      | Some e => Err e
      | None => Ok (ts ++ tempo_estimates pms, ks ++ map first_key pms,
                    mx ++ map highest_pitch pms, mn ++ map lowest_pitch pms)
      end.
Proof.
  induction pms as [| pm rest IH]; intros ts ks mx mn.
  - simpl. rewrite !app_nil_r. reflexivity.
  - cbn [report_loop first_report_error map].
    destruct (estimate_tempo pm) as [tempo | e] eqn:Et; [|reflexivity].
    rewrite (tempo_estimates_cons pm rest tempo Et). cbn [bind].
    unfold _get_min_max_pitch, first_key, highest_pitch, lowest_pitch.
    destruct (key_signature_changes pm) as [| k kr]; [reflexivity|].
    destruct (all_pitches pm) as [| p pr]; [reflexivity|].
    cbn -[report_loop]. rewrite IH.
    destruct (first_report_error rest); [reflexivity|].
    rewrite <- !app_assoc. reflexivity.
Qed.

Lemma first_report_error_None (pms : list PrettyMIDI) :
  first_report_error pms = None <-> Forall reportable pms.
Proof.
  unfold reportable, tempo_estimable. induction pms as [| pm rest IH]; simpl.
  - split; [constructor | reflexivity].
  - destruct (estimate_tempo pm) as [tempo | e] eqn:Et.
    + destruct (key_signature_changes pm) as [| k kr] eqn:Ek.
      * split; [discriminate|]. intros H. inversion H as [| ? ? (_ & Hk & _) _]; subst.
        rewrite Ek in Hk. contradiction.
      * destruct (all_pitches pm) as [| p pr] eqn:Ep.
        -- split; [discriminate|]. intros H. inversion H as [| ? ? (_ & _ & Hn) _]; subst.
           rewrite Ep in Hn. contradiction.
        -- rewrite IH. split.
           ++ intros H. constructor; [|exact H].
              rewrite Et, Ek, Ep. repeat split; discriminate.
           ++ intros H. inversion H; assumption.
    + split; [discriminate|]. intros H. inversion H as [| ? ? (Ht & _) _]; subst.
      rewrite Et in Ht. discriminate.
Qed.

Lemma first_report_error_Some (pms : list PrettyMIDI) (e : exn) :
  first_report_error pms = Some e ->
  exists pre pm post,
    pms = pre ++ pm :: post /\ Forall reportable pre /\ stops_report pm e.
Proof.
  unfold stops_report, tempo_estimable.
  induction pms as [| pm rest IH]; simpl; [discriminate|].
  destruct (estimate_tempo pm) as [tempo | e0] eqn:Et.
  - destruct (key_signature_changes pm) as [| k kr] eqn:Ek.
    + intros H. injection H as <-. exists [], pm, rest.
      split; [reflexivity|]. split; [constructor|]. right. left.
      rewrite Et. repeat split; try reflexivity; assumption.
    + destruct (all_pitches pm) as [| p pr] eqn:Ep.
      * intros H. injection H as <-. exists [], pm, rest.
        split; [reflexivity|]. split; [constructor|]. right. right.
        rewrite Et, Ek. repeat split; try reflexivity; try assumption. discriminate.
      * intros H. destruct (IH H) as (pre & pm' & post & -> & Hpre & Hcase).
        exists (pm :: pre), pm', post. split; [reflexivity|].
        split; [|exact Hcase].
        constructor; [|exact Hpre]. unfold reportable, tempo_estimable.
        rewrite Et, Ek, Ep. repeat split; discriminate.
  - intros H. injection H as <-. exists [], pm, rest.
    split; [reflexivity|]. split; [constructor|]. left. exact Et.
Qed.

Lemma tempo_estimates_length (pms : list PrettyMIDI) :
  Forall tempo_estimable pms -> length (tempo_estimates pms) = length pms.
Proof.
  unfold tempo_estimates, tempo_estimable.
  induction 1 as [| pm rest Ht _ IH]; [reflexivity|]. simpl.
  destruct (estimate_tempo pm); [|discriminate]. simpl. rewrite IH. reflexivity.
Qed.

Lemma Counter_add_total (k : Z) (c : list (Z * nat)) :
  list_sum (map snd (Counter_add k c)) = S (list_sum (map snd c)).
Proof.
  induction c as [| [k0 n] r IH]; simpl; [reflexivity|].
  destruct (k =? k0); simpl; [reflexivity|]. rewrite IH. lia.
Qed.

Lemma Counter_total (keys : list Z) :
  list_sum (map snd (Counter keys)) = length keys.
Proof.
  unfold Counter.
  assert (H : forall c, list_sum (map snd (fold_left (fun c k => Counter_add k c) keys c))
                        = (list_sum (map snd c) + length keys)%nat).
  { induction keys as [| x r IH]; intros c; simpl; [lia|].
    rewrite IH, Counter_add_total. lia. }
  rewrite H. reflexivity.
Qed.

Lemma generate_midi_files_report_outcome (pms : list PrettyMIDI) :
  generate_midi_files_report pms
  = match first_report_error pms with
    | Some e => Err e
    | None => Ok (mk_FileReport (tempo_estimates pms) (Counter (map first_key pms))
                                (map lowest_pitch pms) (map highest_pitch pms))
    end.
Proof.
  unfold generate_midi_files_report. rewrite report_loop_outcome.
  destruct (first_report_error pms); reflexivity.
Qed.

(** X3: the report succeeds exactly on a corpus whose files all have a tempo
    the library can estimate, a key signature and a note; it then lists one
    tempo, lowest and highest pitch per file, in corpus order, and its key
    counts add up to the number of files.  Otherwise it raises the error of
    the first file it cannot handle: the exception of [estimate_tempo] when
    the estimate raises, else [IndexError] for a file without key signature,
    else the error of [min] for a file without notes. *)
Theorem report_outcome (pms : list PrettyMIDI) :
  (forall report,
      generate_midi_files_report pms = Ok report
      <-> Forall reportable pms
          /\ report = mk_FileReport (tempo_estimates pms) (Counter (map first_key pms))
                                    (map lowest_pitch pms) (map highest_pitch pms))
  /\ (forall report,
         generate_midi_files_report pms = Ok report ->
         length (tempos report) = length pms
         /\ length (min_pitch report) = length pms
         /\ length (max_pitch report) = length pms
         /\ list_sum (map snd (freq_key report)) = length pms)
  /\ (forall e,
         generate_midi_files_report pms = Err e ->
         exists pre pm post,
           pms = pre ++ pm :: post
           /\ Forall reportable pre
           /\ (estimate_tempo pm = Err e
               \/ (tempo_estimable pm /\ key_signature_changes pm = []
                   /\ e = IndexError_list_index)
               \/ (tempo_estimable pm /\ key_signature_changes pm <> []
                   /\ all_pitches pm = [] /\ e = EmptyTrackError))).
Proof.
  rewrite generate_midi_files_report_outcome.
  destruct (first_report_error pms) as [e0 |] eqn:E.
  - split; [|split].
    + intros report. split; [discriminate|].
      intros [Hall _]. apply first_report_error_None in Hall. congruence.
    + discriminate.
    + intros e H. injection H as <-. apply first_report_error_Some. exact E.
  - apply first_report_error_None in E.
    split; [|split].
    + intros report. split.
      * intros H. injection H as <-. split; [exact E | reflexivity].
      * intros [_ ->]. reflexivity.
    + intros report H. injection H as <-. cbn [tempos min_pitch max_pitch freq_key].
      rewrite Counter_total, !length_map, tempo_estimates_length.
      * repeat split; reflexivity.
      * eapply Forall_impl; [|exact E]. intros pm (Ht & _). exact Ht.
    + discriminate.
Qed.

Lemma aggregation_report_key (np_mean np_std : list float -> float)
    (pms : list PrettyMIDI) (report : FileReport)
    (temp_mean temp_std : float) (key low high : Z) :
  generate_midi_files_report pms = Ok report ->
  aggregation_report np_mean np_std report = Ok (temp_mean, temp_std, key, low, high) ->
  pms <> []
  /\ Forall reportable pms
  /\ get_most_freq_value (Counter (map first_key pms)) = Ok key
  /\ temp_mean = np_mean (tempo_estimates pms)
  /\ temp_std = np_std (tempo_estimates pms)
  /\ low = low_pitch_bound pms
  /\ high = high_pitch_bound pms.
Proof.
  rewrite generate_midi_files_report_outcome.
  destruct (first_report_error pms) eqn:E; [discriminate|].
  apply first_report_error_None in E.
  intros H. injection H as <-. intros Hagg.
  destruct pms as [| pm rest]; [discriminate|].
  assert (Hne : pm :: rest <> []) by discriminate.
  destruct (aggregation_report_spec np_mean np_std (pm :: rest) Hne) as [key' Hspec].
  rewrite Hspec in Hagg. injection Hagg as <- <- <- <- <-.
  split; [exact Hne|]. split; [exact E|].
  split; [|repeat split; reflexivity].
  unfold aggregation_report in Hspec. cbn [freq_key min_pitch max_pitch tempos] in Hspec.
  destruct (get_most_freq_value (Counter (map first_key (pm :: rest)))) as [k | e];
    [|discriminate].
  cbn [bind] in Hspec.
  rewrite !py_int_mean in Hspec by discriminate.
  cbn [bind] in Hspec. injection Hspec as ->. reflexivity.
Qed.

(** X4: the key the aggregation reports is the first key signature's number
    of some file, no other key number is that of more files, and among the
    key numbers of as many files it is the one met first in the corpus. *)
Theorem aggregated_key_is_most_frequent
    (np_mean np_std : list float -> float) (pms : list PrettyMIDI)
    (report : FileReport) (temp_mean temp_std : float) (key low high : Z) :
  generate_midi_files_report pms = Ok report ->
  aggregation_report np_mean np_std report = Ok (temp_mean, temp_std, key, low, high) ->
  In key (map first_key pms)
  /\ (forall k, (count_occ Z.eq_dec (map first_key pms) k
                 <= count_occ Z.eq_dec (map first_key pms) key)%nat)
  /\ exists pre post,
       first_occurrences (map first_key pms) = pre ++ key :: post
       /\ Forall (fun k => (count_occ Z.eq_dec (map first_key pms) k
                            < count_occ Z.eq_dec (map first_key pms) key)%nat) pre.
Proof.
  intros Hrep Hagg.
  destruct (aggregation_report_key _ _ _ _ _ _ _ _ _ Hrep Hagg) as (_ & _ & Hkey & _).
  apply Counter_most_frequent. exact Hkey.
Qed.

(** Keys 2, 0, 2, 0: both keys have two files, and 2 comes first. *)
Lemma aggregated_key_is_most_frequent_witness :
  aggregation_report naive_mean naive_std
    (mk_FileReport (tempo_estimates keyed_corpus) (Counter (map first_key keyed_corpus))
                   (map lowest_pitch keyed_corpus) (map highest_pitch keyed_corpus))
  = Ok (120%float, naive_std (tempo_estimates keyed_corpus), 2, 60, 64)
  /\ In 2 (map first_key keyed_corpus)
  /\ (forall k, (count_occ Z.eq_dec (map first_key keyed_corpus) k
                 <= count_occ Z.eq_dec (map first_key keyed_corpus) 2%Z)%nat).
Proof.
  assert (Hagg : aggregation_report naive_mean naive_std
            (mk_FileReport (tempo_estimates keyed_corpus)
               (Counter (map first_key keyed_corpus))
               (map lowest_pitch keyed_corpus) (map highest_pitch keyed_corpus))
          = Ok (120%float, naive_std (tempo_estimates keyed_corpus), 2, 60, 64)).
  { vm_compute. reflexivity. }
  split; [exact Hagg|].
  destruct (aggregated_key_is_most_frequent naive_mean naive_std keyed_corpus _ _ _ _ _ _
              eq_refl Hagg) as (Hin & Hmax & _).
  split; assumption.
Defined.

(** ** Lowest and highest pitch *)

Lemma fold_min_In (r : list Z) : forall x, In (fold_left Z.min r x) (x :: r).
Proof.
  induction r as [| a r IH]; intros x; simpl; [left; reflexivity|].
  destruct (IH (Z.min x a)) as [H | H].
  - destruct (Z.min_spec x a) as [[_ E] | [_ E]].
    + left. transitivity (Z.min x a); [symmetry; exact E | exact H].
    + right; left. transitivity (Z.min x a); [symmetry; exact E | exact H].
  - right. right. exact H.
Qed.

Lemma fold_max_In (r : list Z) : forall x, In (fold_left Z.max r x) (x :: r).
Proof.
  induction r as [| a r IH]; intros x; simpl; [left; reflexivity|].
  destruct (IH (Z.max x a)) as [H | H].
  - destruct (Z.max_spec x a) as [[_ E] | [_ E]].
    + right; left. transitivity (Z.max x a); [symmetry; exact E | exact H].
    + left. transitivity (Z.max x a); [symmetry; exact E | exact H].
  - right. right. exact H.
Qed.

Lemma fold_min_le_all (r : list Z) :
  forall x p, In p (x :: r) -> fold_left Z.min r x <= p.
Proof.
  induction r as [| a r IH]; intros x p Hin; simpl.
  - destruct Hin as [<- | []]. lia.
  - destruct Hin as [<- | [<- | Hin]].
    + pose proof (fold_min_le r (Z.min x a)). lia.
    + pose proof (fold_min_le r (Z.min x a)). lia.
    + apply IH. right. exact Hin.
Qed.

Lemma fold_max_ge_all (r : list Z) :
  forall x p, In p (x :: r) -> p <= fold_left Z.max r x.
Proof.
  induction r as [| a r IH]; intros x p Hin; simpl.
  - destruct Hin as [<- | []]. lia.
  - destruct Hin as [<- | [<- | Hin]].
    + pose proof (fold_max_ge r (Z.max x a)). lia.
    + pose proof (fold_max_ge r (Z.max x a)). lia.
    + apply IH. right. exact Hin.
Qed.

Lemma note_pitch_In (pm : PrettyMIDI) (instrument : Instrument) (note : Note) :
  In instrument (instruments pm) -> In note (notes instrument) ->
  In (pitch note) (all_pitches pm).
Proof.
  intros Hi Hn. unfold all_pitches. apply in_flat_map.
  exists instrument. split; [exact Hi|]. apply in_map. exact Hn.
Qed.

Lemma pitch_summaries_are_extremes (pm : PrettyMIDI) :
  all_pitches pm <> [] ->
  In (lowest_pitch pm) (all_pitches pm)
  /\ In (highest_pitch pm) (all_pitches pm)
  /\ forall p, In p (all_pitches pm) -> lowest_pitch pm <= p <= highest_pitch pm.
Proof.
  unfold lowest_pitch, highest_pitch.
  destruct (all_pitches pm) as [| x r]; [contradiction|]. intros _.
  split; [apply fold_min_In|]. split; [apply fold_max_In|].
  intros p Hp. split; [apply fold_min_le_all | apply fold_max_ge_all]; exact Hp.
Qed.

(** X5: when [_get_min_max_pitch] returns, the two values are pitches of
    notes of the file, and every note of every instrument lies between
    them. *)
Theorem min_max_pitch_are_extremes (pm : PrettyMIDI) (lo hi : Z) :
  _get_min_max_pitch pm = Ok (lo, hi) ->
  (exists instrument note,
      In instrument (instruments pm) /\ In note (notes instrument) /\ pitch note = lo)
  /\ (exists instrument note,
         In instrument (instruments pm) /\ In note (notes instrument) /\ pitch note = hi)
  /\ (forall instrument note,
         In instrument (instruments pm) -> In note (notes instrument) ->
         lo <= pitch note <= hi).
Proof.
  intros H.
  assert (Hne : all_pitches pm <> []).
  { intros Hnil. rewrite (_get_min_max_pitch_no_notes pm Hnil) in H. discriminate. }
  rewrite (_get_min_max_pitch_notes pm Hne) in H. injection H as <- <-.
  destruct (pitch_summaries_are_extremes pm Hne) as (Hlo & Hhi & Hall).
  assert (Hsrc : forall p, In p (all_pitches pm) ->
             exists instrument note,
               In instrument (instruments pm) /\ In note (notes instrument)
               /\ pitch note = p).
  { intros p Hp. unfold all_pitches in Hp. apply in_flat_map in Hp.
    destruct Hp as (i & Hi & Hp). apply in_map_iff in Hp.
    destruct Hp as (n & Hn & Hin). exists i, n. repeat split; assumption. }
  split; [apply Hsrc; exact Hlo|]. split; [apply Hsrc; exact Hhi|].
  intros i n Hi Hn. apply Hall. apply (note_pitch_In pm i n Hi Hn).
Qed.

Lemma min_max_pitch_are_extremes_witness :
  _get_min_max_pitch (simple_track [62; 60; 67; 64] 120 10) = Ok (60, 67)
  /\ forall instrument note,
       In instrument (instruments (simple_track [62; 60; 67; 64] 120 10)) ->
       In note (notes instrument) ->
       60 <= pitch note <= 67.
Proof.
  split; [reflexivity|].
  apply (min_max_pitch_are_extremes (simple_track [62; 60; 67; 64] 120 10) 60 67).
  reflexivity.
Defined.

(** X6: a file the Range Filter admits is a file of the corpus with at least
    one note, and none of its notes lies outside the pitch bounds the slice
    is taken with. *)
Theorem admitted_notes_within_bounds
    (np_mean np_std : list float -> float) (pms : list PrettyMIDI) (pm : PrettyMIDI) :
  In pm (admitted np_mean np_std pms) ->
  In pm pms
  /\ all_pitches pm <> []
  /\ forall instrument note,
       In instrument (instruments pm) -> In note (notes instrument) ->
       low_pitch_bound pms <= pitch note <= high_pitch_bound pms.
Proof.
  unfold admitted. intros Hin. apply filter_In in Hin. destruct Hin as [Hin Hadm].
  split; [exact Hin|].
  destruct (range_filter_admits_inv _ _ _ _ _ Hadm) as (tempo & Htempo & Hne).
  split; [exact Hne|].
  intros i n Hi Hn.
  apply (range_filter_admits_iff _ _ _ _ pm tempo Htempo Hne) in Hadm.
  destruct Hadm as [_ Hp].
  unfold _is_in_pitch_range in Hp.
  destruct (lowest_pitch pm >=? low_pitch_bound pms) eqn:E1; [|discriminate].
  destruct (highest_pitch pm <=? high_pitch_bound pms) eqn:E2; [|discriminate].
  rewrite Z.geb_leb in E1. apply Z.leb_le in E1. apply Z.leb_le in E2.
  destruct (pitch_summaries_are_extremes pm Hne) as (_ & _ & Hall).
  specialize (Hall (pitch n) (note_pitch_In pm i n Hi Hn)). lia.
Qed.

Lemma admitted_notes_within_bounds_witness :
  In (simple_track [60; 64] 121 30) (admitted naive_mean naive_std four_track_corpus)
  /\ forall instrument note,
       In instrument (instruments (simple_track [60; 64] 121 30)) ->
       In note (notes instrument) ->
       low_pitch_bound four_track_corpus <= pitch note
       <= high_pitch_bound four_track_corpus.
Proof.
  assert (Hin : In (simple_track [60; 64] 121 30)
                  (admitted naive_mean naive_std four_track_corpus)).
  { vm_compute. right. left. reflexivity. }
  split; [exact Hin|].
  apply (admitted_notes_within_bounds naive_mean naive_std four_track_corpus _ Hin).
Defined.

(** X7: on a corpus of files with MIDI pitches, when the aggregation
    succeeds its two pitch bounds are ordered and lie within any range that
    holds every pitch of the corpus; in particular they are rows of the
    piano roll. *)
Theorem aggregate_bounds_within_corpus_range
    (np_mean np_std : list float -> float) (pms : list PrettyMIDI)
    (report : FileReport) (temp_mean temp_std : float) (key low high a b : Z) :
  midi_corpus pms ->
  generate_midi_files_report pms = Ok report ->
  aggregation_report np_mean np_std report = Ok (temp_mean, temp_std, key, low, high) ->
  (forall pm p, In pm pms -> In p (all_pitches pm) -> a <= p <= b) ->
  (a <= low /\ low <= high /\ high <= b)
  /\ 0 <= low /\ high <= 127.
Proof.
  intros Hmidi Hrep Hagg Hrange.
  destruct (aggregation_report_key _ _ _ _ _ _ _ _ _ Hrep Hagg)
    as (Hne & Hall & _ & _ & _ & -> & ->).
  assert (Hmap : forall f : PrettyMIDI -> Z, map f pms <> []).
  { intros f. destruct pms; [contradiction | discriminate]. }
  assert (Hbounds : forall lo hi,
             (forall pm p, In pm pms -> In p (all_pitches pm) -> lo <= p <= hi) ->
             lo <= low_pitch_bound pms /\ high_pitch_bound pms <= hi).
  { intros lo hi Hr.
    assert (Hsum : forall pm, In pm pms ->
               lo <= lowest_pitch pm <= hi /\ lo <= highest_pitch pm <= hi).
    { intros pm Hin. rewrite Forall_forall in Hall.
      destruct (Hall pm Hin) as (_ & _ & Hn).
      apply (pitch_summaries_in_range lo hi pm Hn).
      apply Forall_forall. intros p Hp. apply (Hr pm p Hin Hp). }
    assert (Hlow : Forall (fun p => lo <= p <= hi) (map lowest_pitch pms)).
    { apply Forall_map. apply Forall_forall. intros pm Hin. apply (Hsum pm Hin). }
    assert (Hhigh : Forall (fun p => lo <= p <= hi) (map highest_pitch pms)).
    { apply Forall_map. apply Forall_forall. intros pm Hin. apply (Hsum pm Hin). }
    pose proof (truncated_mean_bounds lo hi _ (Hmap lowest_pitch) Hlow).
    pose proof (truncated_mean_bounds lo hi _ (Hmap highest_pitch) Hhigh).
    unfold low_pitch_bound, high_pitch_bound in *. lia. }
  pose proof (low_le_high_bound pms Hne) as Hle.
  destruct (Hbounds a b Hrange) as [Ha Hb].
  destruct (Hbounds 0 127) as [H0 H127].
  { intros pm p Hin Hp. destruct Hmidi as [Hm _]. rewrite Forall_forall in Hm.
    specialize (Hm pm Hin). unfold midi_pitches in Hm. rewrite Forall_forall in Hm.
    apply Hm. exact Hp. }
  lia.
Qed.

Lemma aggregate_bounds_within_corpus_range_witness :
  aggregation_report naive_mean naive_std
    (mk_FileReport (tempo_estimates four_track_corpus)
       (Counter (map first_key four_track_corpus))
       (map lowest_pitch four_track_corpus) (map highest_pitch four_track_corpus))
  = Ok (120%float, naive_std (tempo_estimates four_track_corpus), 0, 60, 64)
  /\ (59 <= 60 /\ 60 <= 64 /\ 64 <= 65)
  /\ 0 <= 60 /\ 64 <= 127.
Proof.
  assert (Hagg : aggregation_report naive_mean naive_std
            (mk_FileReport (tempo_estimates four_track_corpus)
               (Counter (map first_key four_track_corpus))
               (map lowest_pitch four_track_corpus) (map highest_pitch four_track_corpus))
          = Ok (120%float, naive_std (tempo_estimates four_track_corpus), 0, 60, 64)).
  { vm_compute. reflexivity. }
  split; [exact Hagg|].
  assert (Hmidi : midi_corpus four_track_corpus).
  { split; [repeat constructor; cbn; lia | reflexivity]. }
  apply (aggregate_bounds_within_corpus_range naive_mean naive_std four_track_corpus
           _ _ _ _ _ _ 59 65 Hmidi eq_refl Hagg).
  intros pm p Hpm Hp.
  repeat (destruct Hpm as [<- | Hpm];
          [simpl in Hp; repeat (destruct Hp as [<- | Hp]; [lia|]); contradiction|]).
  contradiction.
Defined.

(** ** The outcome of the pipeline *)

Lemma piano_roll_filter_outcome (np_mean np_std : list float -> float)
    (pms : list PrettyMIDI) :
  piano_roll_filter np_mean np_std pms
  = match first_report_error pms with
    | Some e => Err e
    | None =>
        match pms with
        | [] => Err IndexError_list_index
        | _ :: _ =>
            result <- np_hstack (map (sliced_roll (low_pitch_bound pms) (high_pitch_bound pms))
                                     (admitted np_mean np_std pms)) ;;
            Ok (transpose result)
        end
    end.
Proof.
  destruct (first_report_error pms) as [e |] eqn:E.
  - unfold piano_roll_filter. rewrite generate_midi_files_report_outcome, E. reflexivity.
  - destruct pms as [| pm rest]; [reflexivity|].
    apply first_report_error_None in E.
    apply piano_roll_filter_spec; [discriminate | exact E].
Qed.


Lemma np_hstack_errors (arrs : list ndarray) (e : exn) :
  np_hstack arrs = Err e ->
  (arrs = [] /\ e = EmptyCorpusError)
  \/ (arrs <> [] /\ e = ValueError_dimension_mismatch).
Proof.
  destruct arrs as [| a rest]; simpl.
  - intros H. injection H as <-. left. split; reflexivity.
  - destruct (forallb _ rest); [discriminate|].
    intros H. injection H as <-. right. split; [discriminate | reflexivity].
Qed.

(** X8: whatever the corpus, the aggregation of a report that could be made
    never fails converting a mean to an int (on an empty report the
    [IndexError] of the most frequent key comes first), and an error
    [piano_roll_filter] raises is the exception [estimate_tempo] raised on
    the first file whose tempo cannot be estimated, the [IndexError] of an
    empty list, the error of [min] on a file without notes, or one of the
    two errors of [np.hstack]. *)
Theorem piano_roll_filter_errors
    (np_mean np_std : list float -> float) (pms : list PrettyMIDI) :
  (forall report,
      generate_midi_files_report pms = Ok report ->
      aggregation_report np_mean np_std report <> Err ValueError_nan_to_int)
  /\ (forall e, piano_roll_filter np_mean np_std pms = Err e ->
        (exists pre pm post,
            pms = pre ++ pm :: post /\ Forall reportable pre
            /\ estimate_tempo pm = Err e)
        \/ e = IndexError_list_index \/ e = EmptyTrackError
        \/ e = EmptyCorpusError \/ e = ValueError_dimension_mismatch).
Proof.
  split.
  - intros report. rewrite generate_midi_files_report_outcome.
    destruct (first_report_error pms) eqn:E; [discriminate|].
    intros H. injection H as <-.
    destruct pms as [| pm rest]; [discriminate|].
    destruct (aggregation_report_spec np_mean np_std (pm :: rest)) as [key ->];
      discriminate.
  - intros e. rewrite piano_roll_filter_outcome.
    destruct (first_report_error pms) as [e0 |] eqn:E.
    + intros He. injection He as <-.
      destruct (first_report_error_Some pms e0 E) as (pre & pm & post & Heq & Hpre & Hc).
      destruct Hc as [Ht | [(_ & _ & Hx) | (_ & _ & _ & Hx)]].
      * left. exists pre, pm, post. repeat split; assumption.
      * rewrite Hx. auto.
      * rewrite Hx. auto.
    + destruct pms as [| pm rest].
      * intros He. injection He as <-. auto.
      * destruct (np_hstack _) as [r | e1] eqn:Eh; simpl; [discriminate|].
        intros He. injection He as <-.
        destruct (np_hstack_errors _ _ Eh) as [[_ Hx] | [_ Hx]]; rewrite Hx; auto.
Qed.

Lemma first_report_error_with_key_numbers (f : Z -> Z) (pms : list PrettyMIDI) :
  first_report_error (map (with_key_numbers f) pms) = first_report_error pms.
Proof.
  induction pms as [| pm rest IH]; [reflexivity|].
  cbn [map first_report_error].
  change (estimate_tempo (with_key_numbers f pm)) with (estimate_tempo pm).
  destruct (estimate_tempo pm) as [tempo | e]; [|reflexivity].
  change (all_pitches (with_key_numbers f pm)) with (all_pitches pm).
  change (key_signature_changes (with_key_numbers f pm))
    with (map (fun ks => mk_KeySignature (f (key_number ks))) (key_signature_changes pm)).
  destruct (key_signature_changes pm) as [| k kr]; [reflexivity|].
  cbn [map]. rewrite IH. reflexivity.
Qed.

Lemma filter_map_swap {A B : Type} (f : A -> B) (P : B -> bool) (l : list A) :
  filter P (map f l) = map f (filter (fun x => P (f x)) l).
Proof.
  induction l as [| x r IH]; [reflexivity|]. simpl.
  destruct (P (f x)); simpl; rewrite IH; reflexivity.
Qed.

(** X9: the key numbers of the files have no effect on what
    [piano_roll_filter] returns or raises: replacing every key number by
    another gives the same result. *)
Theorem key_numbers_do_not_matter
    (np_mean np_std : list float -> float) (f : Z -> Z) (pms : list PrettyMIDI) :
  piano_roll_filter np_mean np_std (map (with_key_numbers f) pms)
  = piano_roll_filter np_mean np_std pms.
Proof.
  rewrite !piano_roll_filter_outcome, first_report_error_with_key_numbers.
  destruct (first_report_error pms); [reflexivity|].
  destruct pms as [| pm rest]; [reflexivity|].
  set (pms := pm :: rest).
  change (with_key_numbers f pm :: map (with_key_numbers f) rest)
    with (map (with_key_numbers f) pms).
  assert (Hlow : low_pitch_bound (map (with_key_numbers f) pms) = low_pitch_bound pms).
  { unfold low_pitch_bound. rewrite map_map. reflexivity. }
  assert (Hhigh : high_pitch_bound (map (with_key_numbers f) pms) = high_pitch_bound pms).
  { unfold high_pitch_bound. rewrite map_map. reflexivity. }
  assert (Hadm : admitted np_mean np_std (map (with_key_numbers f) pms)
                 = map (with_key_numbers f) (admitted np_mean np_std pms)).
  { assert (Htempo : tempo_estimates (map (with_key_numbers f) pms) = tempo_estimates pms).
    { unfold tempo_estimates. rewrite map_map. reflexivity. }
    unfold admitted. rewrite Hlow, Hhigh, Htempo, filter_map_swap. reflexivity. }
  rewrite Hadm, Hlow, Hhigh, map_map. reflexivity.
Qed.







(** ** NaN in the tempo test *)

Lemma is_nan_spec (x : float) : is_nan x = true -> Prim2SF x = S754_nan.
Proof.
  unfold is_nan. rewrite eqb_spec. unfold SFeqb.
  destruct (Prim2SF x) as [s | s | | s m e]; simpl; try reflexivity.
  - discriminate.
  - destruct s; discriminate.
  - change (Pos.compare_cont Eq m m) with (Pos.compare m m).
    rewrite Z.compare_refl, Pos.compare_refl. destruct s; discriminate.
Qed.

Lemma SFltb_nan_r (x : spec_float) : SFltb x S754_nan = false.
Proof. destruct x; reflexivity. Qed.

Lemma SF64sub_nan_r (x : spec_float) : SF64sub x S754_nan = S754_nan.
Proof. destruct x; reflexivity. Qed.

(** X11: the tempo test fails whenever the tempo, the mean or the standard
    deviation is NaN, so a file with such a tempo estimate, or any file under
    such statistics, is not admitted. *)
Theorem nan_is_never_in_tempo_range (tempo mean std : float) :
  is_nan tempo || is_nan mean || is_nan std = true ->
  _is_in_tempo_range tempo mean std = false
  /\ forall (low high : Z) (pm : PrettyMIDI),
       estimate_tempo pm = Ok tempo ->
       range_filter_admits mean std low high pm = false.
Proof.
  intros H.
  assert (Htest : _is_in_tempo_range tempo mean std = false).
  { unfold _is_in_tempo_range. rewrite !ltb_spec, sub_spec.
    apply orb_true_iff in H. destruct H as [H | H];
      [apply orb_true_iff in H; destruct H as [H | H]|];
      apply is_nan_spec in H; rewrite H.
    - rewrite SFltb_nan_r. reflexivity.
    - reflexivity.
    - rewrite SF64sub_nan_r. reflexivity. }
  split; [exact Htest|].
  intros low high pm Htempo. unfold range_filter_admits. rewrite Htempo.
  destruct (_get_min_max_pitch pm) as [[lo hi] | e]; [|reflexivity].
  rewrite Htest. reflexivity.
Qed.

(** The statistics of an empty list of tempos are NaN. *)
Lemma nan_is_never_in_tempo_range_witness :
  is_nan (naive_mean []) = true
  /\ _is_in_tempo_range 120 (naive_mean []) (naive_std []) = false.
Proof.
  split; [vm_compute; reflexivity|].
  apply (nan_is_never_in_tempo_range 120 (naive_mean []) (naive_std [])).
  vm_compute. reflexivity.
Defined.

(** ** Loading several trees *)

Lemma parse_tree_app (join : string -> string -> string)
    (ctor : string -> result PrettyMIDI)
    (t1 t2 : list (string * list string * list string)) :
  parse_tree join ctor (t1 ++ t2) = parse_tree join ctor t1 ++ parse_tree join ctor t2.
Proof. unfold parse_tree. apply flat_map_app. Qed.

Lemma successes_length {A : Type} (l : list (result A)) :
  (length (successes l) <= length l)%nat.
Proof.
  induction l as [| [a | e] r IH]; simpl; lia.
Qed.

Lemma parse_tree_length (join : string -> string -> string)
    (ctor : string -> result PrettyMIDI)
    (tree : list (string * list string * list string)) :
  length (parse_tree join ctor tree)
  = list_sum (map (fun '(_, _, files) => length files) tree).
Proof.
  induction tree as [| [[d ds] files] rest IH]; [reflexivity|].
  cbn [parse_tree flat_map map list_sum fold_right].
  rewrite length_app, length_map. unfold parse_tree in IH. rewrite IH. reflexivity.
Qed.

(** X12: loading is additive over the directories walked: the files kept
    from two trees walked one after the other are those kept from the first
    followed by those kept from the second; and the loader never keeps more
    files than the walk lists. *)
Theorem loader_is_additive
    (join : string -> string -> string) (ctor : string -> result PrettyMIDI)
    (t1 t2 : list (string * list string * list string)) :
  exists pms1 pms2,
    _file_filter join ctor t1 = Ok pms1
    /\ _file_filter join ctor t2 = Ok pms2
    /\ _file_filter join ctor (t1 ++ t2) = Ok (pms1 ++ pms2)
    /\ (length pms1 <= list_sum (map (fun '(_, _, files) => length files) t1))%nat.
Proof.
  eexists. eexists.
  split; [apply _file_filter_spec|].
  split; [apply _file_filter_spec|].
  split.
  - rewrite _file_filter_spec, parse_tree_app, successes_app, filter_app. reflexivity.
  - rewrite <- (parse_tree_length join ctor t1).
    etransitivity; [apply filter_length_le | apply successes_length].
Qed.

(** ** The command line *)

Lemma length_two {A : Type} (l : list A) :
  length l = 2%nat -> exists a b, l = [a; b].
Proof.
  destruct l as [| a [| b [| c r]]]; try discriminate.
  intros _. exists a, b. reflexivity.
Qed.

(** X13: the argument parser returns a path exactly when [self.argv] has two
    elements, the second names a directory, and [sys.argv] has a second
    element; the path is the absolute path of that element of [sys.argv].
    Any other number of arguments, and a second argument that is not a
    directory, raise their [ValueError]; when [self.argv] is [sys.argv], as
    in the script, the path is that of the directory checked. *)
Theorem cli_arg_parser_outcome
    (isdir : string -> bool) (abspath : string -> string) (argv self_argv : list string) :
  (forall path,
      _cli_arg_parser isdir abspath argv self_argv = inr path
      <-> exists prog dir prog' arg rest,
            self_argv = [prog; dir] /\ isdir dir = true
            /\ argv = prog' :: arg :: rest /\ path = abspath arg)
  /\ (length self_argv <> 2%nat ->
      _cli_arg_parser isdir abspath argv self_argv
      = inl (ValueError "path of folder must be provided"))
  /\ (forall prog dir,
         self_argv = [prog; dir] -> isdir dir = false ->
         _cli_arg_parser isdir abspath argv self_argv
         = inl (ValueError "provided path is not a folder"))
  /\ (forall prog dir,
         _cli_arg_parser isdir abspath [prog; dir] [prog; dir]
         = if isdir dir then inr (abspath dir)
           else inl (ValueError "provided path is not a folder")).
Proof.
  split; [|split; [|split]].
  - intros path. split.
    + unfold _cli_arg_parser.
      destruct (length self_argv =? 2)%nat eqn:E; [|discriminate].
      apply Nat.eqb_eq in E. destruct (length_two _ E) as (prog & dir & ->).
      cbn [negb getitem1].
      destruct (isdir dir) eqn:Ed; [|discriminate].
      destruct argv as [| prog' [| arg rest]]; try discriminate.
      cbn [getitem1]. intros H. injection H as <-.
      exists prog, dir, prog', arg, rest. repeat split; assumption.
    + intros (prog & dir & prog' & arg & rest & -> & Hd & -> & ->).
      unfold _cli_arg_parser. cbn. rewrite Hd. reflexivity.
  - intros Hlen. unfold _cli_arg_parser.
    destruct (length self_argv =? 2)%nat eqn:E; [|reflexivity].
    apply Nat.eqb_eq in E. contradiction.
  - intros prog dir -> Hd. unfold _cli_arg_parser. cbn. rewrite Hd. reflexivity.
  - intros prog dir. unfold _cli_arg_parser. cbn. destruct (isdir dir); reflexivity.
Qed.

(** X14: the script exits with status 0 or 1; it exits with 0, printing a
    shape, exactly when it is given one argument that names a directory and
    the run over the walk of its absolute path returns a matrix; with any
    other number of arguments, or an argument that is not a directory, it
    exits with 1 whatever the file system holds. *)
Theorem script_exit_status
    (isdir : string -> bool) (abspath : string -> string)
    (walk : string -> list (string * list string * list string))
    (np_mean np_std : list float -> float)
    (join : string -> string -> string) (ctor : string -> result PrettyMIDI)
    (argv : list string) :
  (script_main isdir abspath walk np_mean np_std join ctor argv = (1, None)
   \/ exists shape, script_main isdir abspath walk np_mean np_std join ctor argv
                    = (0, Some shape))
  /\ (fst (script_main isdir abspath walk np_mean np_std join ctor argv) = 0
      <-> exists prog dir,
            argv = [prog; dir] /\ isdir dir = true
            /\ fst (main np_mean np_std join ctor (walk (abspath dir))) = 0)
  /\ (forall prog dir,
         argv = [prog; dir] -> isdir dir = true ->
         script_main isdir abspath walk np_mean np_std join ctor argv
         = main np_mean np_std join ctor (walk (abspath dir)))
  /\ (length argv <> 2%nat ->
      script_main isdir abspath walk np_mean np_std join ctor argv = (1, None))
  /\ (forall prog dir,
         argv = [prog; dir] -> isdir dir = false ->
         script_main isdir abspath walk np_mean np_std join ctor argv = (1, None)).
Proof.
  assert (Hdir : forall prog dir,
             argv = [prog; dir] -> isdir dir = true ->
             script_main isdir abspath walk np_mean np_std join ctor argv
             = main np_mean np_std join ctor (walk (abspath dir))).
  { intros prog dir -> Hd.
    unfold script_main, Preprocess_init, _cli_arg_parser, main, run.
    cbn [length Nat.eqb negb getitem1]. rewrite Hd.
    destruct (_file_filter join ctor (walk (abspath dir))) as [pms | e]; reflexivity. }
  assert (Hlen : length argv <> 2%nat ->
                 script_main isdir abspath walk np_mean np_std join ctor argv = (1, None)).
  { intros Hne. unfold script_main, Preprocess_init, _cli_arg_parser.
    destruct (length argv =? 2)%nat eqn:E; [|reflexivity].
    apply Nat.eqb_eq in E. contradiction. }
  assert (Hnot : forall prog dir,
             argv = [prog; dir] -> isdir dir = false ->
             script_main isdir abspath walk np_mean np_std join ctor argv = (1, None)).
  { intros prog dir -> Hd. unfold script_main, Preprocess_init, _cli_arg_parser.
    cbn [length Nat.eqb negb getitem1]. rewrite Hd. reflexivity. }
  assert (Hmain : forall tree,
             main np_mean np_std join ctor tree = (1, None)
             \/ exists shape, main np_mean np_std join ctor tree = (0, Some shape)).
  { intros tree. unfold main. destruct (run np_mean np_std join ctor tree) as [r | e].
    - right. eexists. reflexivity.
    - left. reflexivity. }
  split; [|split; [|split; [exact Hdir | split; [exact Hlen | exact Hnot]]]].
  - destruct (Nat.eq_dec (length argv) 2) as [E | E]; [|left; apply Hlen; exact E].
    destruct (length_two _ E) as (prog & dir & Heq).
    destruct (isdir dir) eqn:Hd.
    + rewrite (Hdir prog dir Heq Hd). apply Hmain.
    + left. apply (Hnot prog dir Heq Hd).
  - split.
    + intros H0.
      destruct (Nat.eq_dec (length argv) 2) as [E | E];
        [|rewrite (Hlen E) in H0; discriminate].
      destruct (length_two _ E) as (prog & dir & Heq).
      destruct (isdir dir) eqn:Hd; [|rewrite (Hnot prog dir Heq Hd) in H0; discriminate].
      exists prog, dir. split; [exact Heq|]. split; [exact Hd|].
      rewrite <- (Hdir prog dir Heq Hd). exact H0.
    + intros (prog & dir & Heq & Hd & H0). rewrite (Hdir prog dir Heq Hd). exact H0.
Qed.

(** The script on the example directory: two of the four files are
    admitted, and the shape printed is 80 by 5. *)
Example script_main_on_corpus :
  script_main corpus_isdir (fun path => path) (corpus_walk four_track_files)
    naive_mean naive_std posix_join (parser_of four_track_table)
    ["preprocessing.py"; "corpus"]%string
  = (0, Some (80%nat, 5%nat)).
Proof. vm_compute. reflexivity. Qed.

Example script_main_without_argument :
  script_main corpus_isdir (fun path => path) (corpus_walk four_track_files)
    naive_mean naive_std posix_join (parser_of four_track_table)
    ["preprocessing.py"]%string
  = (1, None).
Proof. reflexivity. Qed.

(** A file whose tempo cannot be estimated stops the run with the library's
    exception, although it has a note and the files before it are fine. *)
Example estimate_error_aborts_run :
  _get_min_max_pitch one_note_track = Ok (60, 60)
  /\ piano_roll_filter naive_mean naive_std (four_track_corpus ++ [one_note_track])
     = Err (OtherError
              "Can't provide a global tempo estimate when there are fewer than two notes.")
  /\ is_ok (piano_roll_filter naive_mean naive_std (four_track_corpus ++ [one_note_track]))
     = false.
Proof. repeat split; reflexivity. Qed.
